(** * mprisctl: the player registry, primary-player selection and the
      status renderer of [mprisctl.py], as a shallow embedding.

    Python objects with identity (the [MPRISPlayer] instances shared between
    [MPRISManager.players] and [MPRISManager.primary_player]) live in a store
    and are referred to by their index; the insertion-ordered dictionary
    [players] is an association list; exceptions are explicit outcomes; what
    the script prints is collected in a list of lines. *)

From Stdlib Require Import List String Ascii ZArith Lia Bool Arith.
Import ListNotations.
Open Scope list_scope.

(** ** Python strings *)

(** A Python [str] is modelled as its list of characters. *)
Definition str := list ascii.

Notation "$ s" := (list_ascii_of_string s) (at level 1, format "$ s").

Fixpoint str_eqb (a b : str) : bool :=
  match a, b with
  | [], [] => true
  | x :: a', y :: b' => Ascii.eqb x y && str_eqb a' b'
  | _, _ => false
  end.

(** [s.startswith(p)] *)
Fixpoint startswith (p s : str) : bool :=
  match p with
  | [] => true
  | x :: p' =>
      match s with
      | [] => false
      | y :: s' => Ascii.eqb x y && startswith p' s'
      end
  end.

(** The lowest index at which [sub] occurs in [s], if it occurs. *)
Fixpoint index (sub s : str) : option nat :=
  if startswith sub s then Some 0
  else match s with
       | [] => None
       | _ :: s' => option_map S (index sub s')
       end.

(** [s.find(sub)]: that index, [-1] when [sub] does not occur. *)
Definition find (s sub : str) : Z :=
  match index sub s with
  | Some n => Z.of_nat n
  | None => (-1)%Z
  end.

(** Slice bounds as Python normalises them: a negative bound counts from the
    end, and the result is clamped to [0 .. len]. *)
Definition slice_bound (len i : Z) : nat :=
  let j := if (i <? 0)%Z then (i + len)%Z else i in
  Z.to_nat (Z.min len (Z.max 0 j)).

Definition zlen (s : str) : Z := Z.of_nat (List.length s).

(** [s[:i]] *)
Definition slice_to (s : str) (i : Z) : str :=
  firstn (slice_bound (zlen s) i) s.

(** [s[i:]] *)
Definition slice_from (s : str) (i : Z) : str :=
  skipn (slice_bound (zlen s) i) s.

(** [s.replace(old, new)] for a non-empty [old]: matches are taken left to
    right and do not overlap; [skip] counts the characters of the current
    match still to be dropped. *)
Fixpoint replace_scan (old new s : str) (skip : nat) : str :=
  match s with
  | [] => []
  | c :: s' =>
      match skip with
      | S k => replace_scan old new s' k
      | O =>
          if startswith old s
          then new ++ replace_scan old new s' (List.length old - 1)
          else c :: replace_scan old new s' 0
      end
  end.

(** [s.replace(old, new)]; with an empty [old] Python puts [new] before
    every character and at the end. *)
Definition replace (s old new : str) : str :=
  match old with
  | [] => new ++ flat_map (fun c => c :: new) s
  | _ => replace_scan old new s 0
  end.

(** ** Values, exceptions, dictionaries *)

(** What a metadata entry holds: a string ([dbus.String]) or a list of
    strings ([dbus.Array], a subclass of [list]). *)
Inductive value :=
| VStr (s : str)
| VList (l : list str).

Definition value_eqb (a b : value) : bool :=
  match a, b with
  | VStr x, VStr y => str_eqb x y
  | VList x, VList y =>
      (fix go (x y : list str) : bool :=
         match x, y with
         | [], [] => true
         | u :: x', v :: y' => str_eqb u v && go x' y'
         | _, _ => false
         end) x y
  | _, _ => false
  end.

Inductive exn := IndexError | KeyError | AttributeError.

Inductive result (A : Type) :=
| Ok (a : A)
| Raise (e : exn).
Arguments Ok {A} a.
Arguments Raise {A} e.

Definition bind {A B} (r : result A) (k : A -> result B) : result B :=
  match r with
  | Ok a => k a
  | Raise e => Raise e
  end.

Notation "x <- r ;; k" := (bind r (fun x => k))
  (at level 61, r at next level, right associativity).

(** An insertion-ordered Python [dict] with string keys. *)
Definition dict (V : Type) := list (str * V).

Fixpoint dict_get {V} (d : dict V) (k : str) : option V :=
  match d with
  | [] => None
  | (k', v) :: d' => if str_eqb k' k then Some v else dict_get d' k
  end.

Definition dict_mem {V} (d : dict V) (k : str) : bool :=
  match dict_get d k with Some _ => true | None => false end.

(** [d[k] = v]: an existing key keeps its place, a new one goes last. *)
Fixpoint dict_set {V} (d : dict V) (k : str) (v : V) : dict V :=
  match d with
  | [] => [(k, v)]
  | (k', v') :: d' =>
      if str_eqb k' k then (k', v) :: d' else (k', v') :: dict_set d' k v
  end.

(** [del d[k]] on a key that is present. *)
Fixpoint dict_del {V} (d : dict V) (k : str) : dict V :=
  match d with
  | [] => []
  | (k', v') :: d' =>
      if str_eqb k' k then d' else (k', v') :: dict_del d' k
  end.

(** ** The metadata dictionary of a player

    [self.metadata] always has exactly the keys ['title'], ['artist'],
    ['album'], in this order: the code only assigns to keys already there. *)
Inductive field := Title | Artist | Album.

Definition field_name (f : field) : str :=
  match f with
  | Title => $"title"
  | Artist => $"artist"
  | Album => $"album"
  end.

Definition fields : list field := [Title; Artist; Album].

Record metadata_t := {
  title : value;
  artist : value;
  album : value
}.

Definition md_get (md : metadata_t) (f : field) : value :=
  match f with
  | Title => title md
  | Artist => artist md
  | Album => album md
  end.

Definition md_set (md : metadata_t) (f : field) (v : value) : metadata_t :=
  match f with
  | Title => {| title := v; artist := artist md; album := album md |}
  | Artist => {| title := title md; artist := v; album := album md |}
  | Album => {| title := title md; artist := artist md; album := v |}
  end.

(** [normal_key in self.metadata.keys()], giving the key found. *)
Definition field_of_name (k : str) : option field :=
  if str_eqb k (field_name Title) then Some Title
  else if str_eqb k (field_name Artist) then Some Artist
  else if str_eqb k (field_name Album) then Some Album
  else None.

(** [value_dict.keys()] with the values, in dictionary order. *)
Definition md_items (md : metadata_t) : dict value :=
  map (fun f => (field_name f, md_get md f)) fields.

(** ** Functions that don't belong anywhere *)

(** The value put in place of a tag: the first element of a list, the
    value itself otherwise.  [value_dict[tag_name][0]] raises [IndexError]
    on an empty list. *)
Definition tag_value (v : value) : result str :=
  match v with
  | VList [] => Raise IndexError
  | VList (x :: _) => Ok x
  | VStr s => Ok s
  end.

Definition tag_token (tag_name : str) : str := $"{{" ++ tag_name ++ $"}}".

Fixpoint replace_tag_loop (res : str) (items : dict value) : result str :=
  match items with
  | [] => Ok res
  | (tag_name, v) :: rest =>
      val <- tag_value v ;;
      replace_tag_loop (replace res (tag_token tag_name) val) rest
  end.

Definition replace_tag (original : str) (value_dict : metadata_t) : result str :=
  replace_tag_loop original (md_items value_dict).

Definition block_begin (block_name : str) : str := $"{{" ++ block_name ++ $"}}".
Definition block_end (block_name : str) : str := $"{{/" ++ block_name ++ $"}}".

(** [replace_str] is [None] by default; a string asks for the block to be
    cut out and [replace_str] put in its place. *)
Definition replace_block (original block_name : str) (replace_str : option str) : str :=
  let start_pos := find original (block_begin block_name) in
  let end_pos := find original (block_end block_name) in
  match replace_str with
  | Some r =>
      slice_to original start_pos
      ++ r
      ++ slice_from original (end_pos + zlen (block_end block_name))
  | None =>
      replace (replace original (block_begin block_name) [])
              (block_end block_name) []
  end.

(** ** MPRISPlayer *)

Record MPRISPlayer := {
  bus_name : str;
  format_string : str;
  connection : option nat;        (* the signal match made by [connect], if any *)
  is_playing : option bool;       (* [True], [False] or [None] *)
  metadata : metadata_t;
  prev_content : option str
}.

Definition set_connection (p : MPRISPlayer) (c : option nat) : MPRISPlayer :=
  {| bus_name := bus_name p; format_string := format_string p;
     connection := c; is_playing := is_playing p;
     metadata := metadata p; prev_content := prev_content p |}.

Definition set_is_playing (p : MPRISPlayer) (b : option bool) : MPRISPlayer :=
  {| bus_name := bus_name p; format_string := format_string p;
     connection := connection p; is_playing := b;
     metadata := metadata p; prev_content := prev_content p |}.

Definition set_metadata (p : MPRISPlayer) (md : metadata_t) : MPRISPlayer :=
  {| bus_name := bus_name p; format_string := format_string p;
     connection := connection p; is_playing := is_playing p;
     metadata := md; prev_content := prev_content p |}.

Definition set_prev_content (p : MPRISPlayer) (c : option str) : MPRISPlayer :=
  {| bus_name := bus_name p; format_string := format_string p;
     connection := connection p; is_playing := is_playing p;
     metadata := metadata p; prev_content := c |}.

(** [if self.is_playing:] holds for [True] only. *)
Definition truthy (b : option bool) : bool :=
  match b with Some true => true | _ => false end.

(** The string [print_status] builds before it looks at [prev_content]. *)
Definition status_text (fmt : str) (md : metadata_t) (playing : option bool) : result str :=
  res <- replace_tag fmt md ;;
  if truthy playing
  then Ok (replace_block (replace_block res $"playing" None) $"paused" (Some []))
  else Ok (replace_block (replace_block res $"playing" (Some [])) $"paused" None).

Definition opt_str_eqb (a : option str) (b : str) : bool :=
  match a with Some x => str_eqb x b | None => false end.

(** [print_status]: the player afterwards, the lines printed, and how the
    call ended. *)
Definition print_status (p : MPRISPlayer) : MPRISPlayer * list str * result unit :=
  match status_text (format_string p) (metadata p) (is_playing p) with
  | Raise e => (p, [], Raise e)
  | Ok res =>
      if opt_str_eqb (prev_content p) res
      then (p, [], Ok tt)
      else (set_prev_content p (Some res), [res], Ok tt)
  end.

(** *** update_status *)

(** The [changed_props] dictionary of a [PropertiesChanged] signal of the
    player interface: the three keys the code looks at, with the types the
    interface gives them, and the names of whatever else changed. *)
Record changed_props_t := {
  cp_Position : option Z;
  cp_Metadata : option (dict value);
  cp_PlaybackStatus : option str;
  cp_others : list str
}.

(** [if changed_props:] for a dictionary: it has at least one key. *)
Definition cp_nonempty (cp : changed_props_t) : bool :=
  match cp_Position cp, cp_Metadata cp, cp_PlaybackStatus cp, cp_others cp with
  | None, None, None, [] => false
  | _, _, _, _ => true
  end.

(** What the remote player answers to the two [Get] calls of a full update;
    [None] is a [dbus.DBusException]. *)
Record remote_t := {
  get_Metadata : option (dict value);
  get_PlaybackStatus : option str
}.

(** The three-way test on a playback status string. *)
Definition playback_of (s : str) : option bool :=
  if str_eqb s $"Playing" then Some true
  else if str_eqb s $"Paused" then Some false
  else None.

(** The loop over [changed_props['Metadata'].keys()]: [Some md'] when it
    returns [True] from inside the loop, [None] when it runs to its end. *)
Fixpoint scan_metadata (md : metadata_t) (changed : dict value) : option metadata_t :=
  match changed with
  | [] => None
  | (key, v) :: rest =>
      let normal_key := skipn 6 key in
      match field_of_name normal_key with
      | Some f =>
          if negb (value_eqb (md_get md f) v)
          then Some (md_set md f v)
          else scan_metadata md rest
      | None => scan_metadata md rest
      end
  end.

(** The loop over [self.metadata.keys()] of a full update. *)
Definition fetch_metadata (raw_metadata : dict value) : metadata_t :=
  let pick f :=
    match dict_get raw_metadata ($"xesam:" ++ field_name f) with
    | Some v => v
    | None => VStr []
    end in
  {| title := pick Title; artist := pick Artist; album := pick Album |}.

Definition update_status_changed (p : MPRISPlayer) (cp : changed_props_t)
  : MPRISPlayer * bool :=
  match cp_Position cp with
  | Some _ => (p, false)
  | None =>
      match match cp_Metadata cp with
            | Some changed => scan_metadata (metadata p) changed
            | None => None
            end with
      | Some md' => (set_metadata p md', true)
      | None =>
          match cp_PlaybackStatus cp with
          | Some s => (set_is_playing p (playback_of s), true)
          | None => (p, false)
          end
      end
  end.

Definition update_status_full (p : MPRISPlayer) (bus : remote_t)
  : MPRISPlayer * list str * bool :=
  match get_Metadata bus with
  | None => (p, [$"METADATA UNAVAILABLE"], false)
  | Some raw_metadata =>
      let p1 := set_metadata p (fetch_metadata raw_metadata) in
      match get_PlaybackStatus bus with
      | None => (p1, [$"METADATA UNAVAILABLE"], false)
      | Some playback => (set_is_playing p1 (playback_of playback), [], true)
      end
  end.

(** [update_status(changed_props=None)]: the player afterwards, the lines
    printed and the returned flag. *)
Definition update_status (p : MPRISPlayer) (changed_props : option changed_props_t)
  (bus : remote_t) : MPRISPlayer * list str * bool :=
  match changed_props with
  | Some cp =>
      if cp_nonempty cp
      then let '(p', b) := update_status_changed p cp in (p', [], b)
      else update_status_full p bus
  | None => update_status_full p bus
  end.

Definition player_interface : str := $"org.mpris.MediaPlayer2.Player".

Definition on_PropertiesChanged (p : MPRISPlayer) (interface : str)
  (changed_props : changed_props_t) (bus : remote_t)
  : MPRISPlayer * list str * result unit :=
  if str_eqb interface player_interface then
    let '(p1, out1, updated) := update_status p (Some changed_props) bus in
    if updated then
      let '(p2, out2, r) := print_status p1 in (p2, out1 ++ out2, r)
    else (p1, out1, Ok tt)
  else (p, [], Ok tt).

(** [MPRISPlayer.__init__] *)
Definition new_player (name fmt : str) (bus : remote_t) : MPRISPlayer * list str :=
  let p0 := {| bus_name := name; format_string := fmt;
               connection := None; is_playing := None;
               metadata := {| title := VStr []; artist := VList []; album := VStr [] |};
               prev_content := None |} in
  let '(p, out, _) := update_status p0 None bus in (p, out).

Definition default_format : str :=
  $"{{playing}}Playing: {{/playing}}{{paused}}Paused: {{/paused}}{{artist}} - {{title}}".

Definition song_metadata : metadata_t :=
  {| title := VStr $"Song"; artist := VList [$"Band"]; album := VStr $"X" |}.

(** ** MPRISManager *)

(** The manager together with the objects it has created and the part of
    the outside world it acts on.  A player object is named by its index in
    [store]; [primary_player] is [None] for the [NonePlayer] instance.
    [receivers] are the signal matches alive on the bus, each with the player
    whose [on_PropertiesChanged] it calls. *)
Record MPRISManager := {
  mgr_format : str;
  store : list MPRISPlayer;
  players : dict nat;
  primary_player : option nat;
  receivers : list (nat * nat);
  next_match : nat;
  stdout : list str
}.

Definition with_store (m : MPRISManager) (s : list MPRISPlayer) : MPRISManager :=
  {| mgr_format := mgr_format m; store := s; players := players m;
     primary_player := primary_player m; receivers := receivers m;
     next_match := next_match m; stdout := stdout m |}.

Definition with_players (m : MPRISManager) (d : dict nat) : MPRISManager :=
  {| mgr_format := mgr_format m; store := store m; players := d;
     primary_player := primary_player m; receivers := receivers m;
     next_match := next_match m; stdout := stdout m |}.

Definition with_primary (m : MPRISManager) (p : option nat) : MPRISManager :=
  {| mgr_format := mgr_format m; store := store m; players := players m;
     primary_player := p; receivers := receivers m;
     next_match := next_match m; stdout := stdout m |}.

Definition with_receivers (m : MPRISManager) (r : list (nat * nat)) (n : nat)
  : MPRISManager :=
  {| mgr_format := mgr_format m; store := store m; players := players m;
     primary_player := primary_player m; receivers := r;
     next_match := n; stdout := stdout m |}.

Definition print (m : MPRISManager) (lines : list str) : MPRISManager :=
  {| mgr_format := mgr_format m; store := store m; players := players m;
     primary_player := primary_player m; receivers := receivers m;
     next_match := next_match m; stdout := stdout m ++ lines |}.

(** Assignment to the object at index [i]. *)
Fixpoint store_set (s : list MPRISPlayer) (i : nat) (p : MPRISPlayer)
  : list MPRISPlayer :=
  match s, i with
  | [], _ => []
  | _ :: s', O => p :: s'
  | q :: s', S j => q :: store_set s' j p
  end.

(** [player.connect()]: a new signal match, kept in [self.connection]. *)
Definition connect (m : MPRISManager) (i : nat) : MPRISManager :=
  match nth_error (store m) i with
  | Some p =>
      let t := next_match m in
      with_receivers
        (with_store m (store_set (store m) i (set_connection p (Some t))))
        (receivers m ++ [(t, i)]) (S t)
  | None => m
  end.

(** [player.disconnect()], that is [self.connection.remove()]; on a player
    that never connected [self.connection] is [None] and the call raises.
    The [NonePlayer] does nothing. *)
Definition disconnect (m : MPRISManager) (who : option nat)
  : MPRISManager * result unit :=
  match who with
  | None => (m, Ok tt)
  | Some i =>
      match nth_error (store m) i with
      | Some p =>
          match connection p with
          | Some t =>
              (with_receivers m
                 (filter (fun r => negb (Nat.eqb (fst r) t)) (receivers m))
                 (next_match m),
               Ok tt)
          | None => (m, Raise AttributeError)
          end
      | None => (m, Ok tt)
      end
  end.

Definition is_player_bus (name : str) : bool :=
  startswith $"org.mpris.MediaPlayer2" name.

Definition add_player (m : MPRISManager) (name owner : str) (bus : remote_t)
  : MPRISManager :=
  let '(p, out) := new_player name (mgr_format m) bus in
  let i := List.length (store m) in
  with_players (with_store (print m out) (store m ++ [p]))
               (dict_set (players m) owner i).

Definition del_player (m : MPRISManager) (owner : str)
  : MPRISManager * result unit :=
  if dict_mem (players m) owner
  then (with_players m (dict_del (players m) owner), Ok tt)
  else (m, Raise KeyError).

Definition change_owner (m : MPRISManager) (old_owner new_owner : str)
  : MPRISManager * result unit :=
  match dict_get (players m) old_owner with
  | Some temp =>
      (with_players m (dict_set (dict_del (players m) old_owner) new_owner temp),
       Ok tt)
  | None => (m, Raise KeyError)
  end.

Definition same_player (a : option nat) (i : nat) : bool :=
  match a with Some j => Nat.eqb j i | None => false end.

(** The loop of [update_players] over [self.players.items()]; an index
    without an object does not occur (see [mgr_wf]) and is passed over. *)
Fixpoint update_players_loop (m : MPRISManager) (items : dict nat)
  : MPRISManager * result unit :=
  match items with
  | [] => (print m [$"NO ACTIVE PLAYERS"], Ok tt)
  | (_, i) :: rest =>
      match nth_error (store m) i with
      | Some player =>
          match is_playing player with
          | Some _ =>
              if same_player (primary_player m) i then (m, Ok tt)
              else
                match disconnect m (primary_player m) with
                | (m1, Ok _) => (connect (with_primary m1 (Some i)) i, Ok tt)
                | (m1, Raise e) => (m1, Raise e)
                end
          | None => update_players_loop m rest
          end
      | None => update_players_loop m rest
      end
  end.

Definition update_players (m : MPRISManager) : MPRISManager * result unit :=
  update_players_loop m (players m).

(** What the session bus lists: each name with its owner and the answers
    of the player behind it. *)
Definition bus_t := list (str * str * remote_t).

Fixpoint populate_players (m : MPRISManager) (names : bus_t) : MPRISManager :=
  match names with
  | [] => m
  | (name, owner, bus) :: rest =>
      if is_player_bus name
      then populate_players (add_player m name owner bus) rest
      else populate_players m rest
  end.

Definition nonempty (s : str) : bool :=
  match s with [] => false | _ => true end.

Definition on_NameOwnerChanged (m : MPRISManager) (name old_owner new_owner : str)
  (bus : remote_t) : MPRISManager * result unit :=
  if is_player_bus name then
    let '(m1, r) :=
      if negb (nonempty old_owner) && nonempty new_owner
      then (add_player m name old_owner bus, Ok tt)
      else if negb (nonempty new_owner) && nonempty old_owner
      then del_player m old_owner
      else change_owner m old_owner new_owner in
    match r with
    | Ok _ => update_players m1
    | Raise e => (m1, Raise e)
    end
  else (m, Ok tt).

(** The manager as [__init__] has it before it looks at the bus. *)
Definition empty_manager (fmt : str) : MPRISManager :=
  {| mgr_format := fmt; store := []; players := []; primary_player := None;
     receivers := []; next_match := 0; stdout := [] |}.

(** [MPRISManager.__init__] up to the registration of [on_NameOwnerChanged]. *)
Definition new_manager (fmt : str) (names : bus_t) : MPRISManager * result unit :=
  update_players (populate_players (empty_manager fmt) names).

Fixpoint find_receiver (t : nat) (rs : list (nat * nat)) : option nat :=
  match rs with
  | [] => None
  | (t', i) :: rs' => if Nat.eqb t' t then Some i else find_receiver t rs'
  end.

(** Delivery of a [PropertiesChanged] signal to the live match [t]. *)
Definition deliver (m : MPRISManager) (t : nat) (interface : str)
  (cp : changed_props_t) (bus : remote_t) : MPRISManager * result unit :=
  match find_receiver t (receivers m) with
  | Some i =>
      match nth_error (store m) i with
      | Some p =>
          let '(p', out, r) := on_PropertiesChanged p interface cp bus in
          (print (with_store m (store_set (store m) i p')) out, r)
      | None => (m, Ok tt)
      end
  | None => (m, Ok tt)
  end.

(** [manager.primary_player.print_status()], as [main] calls it for the
    commands [status] and [tail]; the [NonePlayer] prints nothing. *)
Definition print_primary (m : MPRISManager) : MPRISManager * result unit :=
  match primary_player m with
  | None => (m, Ok tt)
  | Some i =>
      match nth_error (store m) i with
      | Some p =>
          let '(p', out, r) := print_status p in
          (print (with_store m (store_set (store m) i p')) out, r)
      | None => (m, Ok tt)
      end
  end.

(** ** Runs of the manager

    Everything that can act on a manager: its own operations, the two
    signal handlers as the main loop calls them, and the status line asked
    for by [main].  A handler that raises
    leaves the manager as it was when the exception left it. *)
Inductive op :=
| OpPopulate (names : bus_t)
| OpAddPlayer (name owner : str) (bus : remote_t)
| OpDelPlayer (owner : str)
| OpChangeOwner (old_owner new_owner : str)
| OpUpdatePlayers
| OpNameOwnerChanged (name old_owner new_owner : str) (bus : remote_t)
| OpPropertiesChanged (t : nat) (interface : str) (cp : changed_props_t)
    (bus : remote_t)
| OpPrintStatus.

Definition exec (m : MPRISManager) (o : op) : MPRISManager * result unit :=
  match o with
  | OpPopulate names => (populate_players m names, Ok tt)
  | OpAddPlayer name owner bus => (add_player m name owner bus, Ok tt)
  | OpDelPlayer owner => del_player m owner
  | OpChangeOwner old_owner new_owner => change_owner m old_owner new_owner
  | OpUpdatePlayers => update_players m
  | OpNameOwnerChanged name old_owner new_owner bus =>
      on_NameOwnerChanged m name old_owner new_owner bus
  | OpPropertiesChanged t interface cp bus => deliver m t interface cp bus
  | OpPrintStatus => print_primary m
  end.

Definition run (m : MPRISManager) (ops : list op) : MPRISManager :=
  fold_left (fun m o => fst (exec m o)) ops m.

Inductive reachable : MPRISManager -> Prop :=
| reach_empty fmt : reachable (empty_manager fmt)
| reach_exec m o : reachable m -> reachable (fst (exec m o)).

(** The first entry of the registry, in insertion order, whose player has a
    [bool] in [is_playing]; the entries of [mgr_wf] managers all have an
    object. *)
Fixpoint first_active (s : list MPRISPlayer) (items : dict nat) : option nat :=
  match items with
  | [] => None
  | (_, i) :: rest =>
      match nth_error s i with
      | Some p =>
          match is_playing p with
          | Some _ => Some i
          | None => first_active s rest
          end
      | None => first_active s rest
      end
  end.

(** A manager is well formed when the registry refers to objects of the
    store and the signal matches alive are exactly the one of the primary
    player ([None] being the [NonePlayer], which has none). *)
Definition subscription_ok (m : MPRISManager) : Prop :=
  match primary_player m with
  | None => receivers m = []
  | Some i =>
      exists p t, nth_error (store m) i = Some p
                  /\ connection p = Some t /\ receivers m = [(t, i)]
  end.

Definition registry_ok (m : MPRISManager) : Prop :=
  forall owner i, In (owner, i) (players m) -> i < List.length (store m).

Definition mgr_wf (m : MPRISManager) : Prop :=
  registry_ok m /\ subscription_ok m.

(** The primary player is an entry of the registry. *)
Definition primary_registered (m : MPRISManager) : Prop :=
  match primary_player m with
  | None => True
  | Some i => exists owner, In (owner, i) (players m)
  end.

(** ** Notions used to state the properties *)

(** An entry of [changed_props['Metadata']] names a key of [self.metadata]
    and carries a value other than the cached one. *)
Definition differs (md : metadata_t) (e : str * value) : bool :=
  match field_of_name (skipn 6 (fst e)) with
  | Some f => negb (value_eqb (md_get md f) (snd e))
  | None => false
  end.

(** The lines printed by two calls of [print_status] in a row. *)
Definition print_status_twice (p : MPRISPlayer) : list str :=
  let '(p1, out1, _) := print_status p in
  let '(_, out2, _) := print_status p1 in
  out1 ++ out2.

Definition playback_known (s : list MPRISPlayer) (i : nat) : Prop :=
  exists p b, nth_error s i = Some p /\ is_playing p = Some b.

Definition playback_unknown (s : list MPRISPlayer) (i : nat) : Prop :=
  exists p, nth_error s i = Some p /\ is_playing p = None.

Definition field_eqb (f g : field) : bool :=
  match f, g with
  | Title, Title | Artist, Artist | Album, Album => true
  | _, _ => false
  end.

(** ** Concrete players and events used in examples *)

Definition vlc : str := $"org.mpris.MediaPlayer2.vlc".

(** A player as [__init__] leaves it when the full update fails. *)
Definition blank_player : MPRISPlayer :=
  {| bus_name := vlc; format_string := default_format;
     connection := None; is_playing := None;
     metadata := {| title := VStr []; artist := VList []; album := VStr [] |};
     prev_content := None |}.

Definition song_player : MPRISPlayer :=
  {| bus_name := vlc; format_string := default_format;
     connection := None; is_playing := Some true;
     metadata := song_metadata; prev_content := None |}.

Definition no_bus : remote_t :=
  {| get_Metadata := None; get_PlaybackStatus := None |}.

(** A track change: new title and album, and the player starts playing. *)
Definition track_change : changed_props_t :=
  {| cp_Position := None;
     cp_Metadata := Some [($"xesam:title", VStr $"Song");
                          ($"xesam:album", VStr $"Y")];
     cp_PlaybackStatus := Some $"Playing";
     cp_others := [] |}.

(** The three statements by which [update_players] changes the primary
    player: disconnect the old one, assign, connect the new one. *)
Definition switch_to (m : MPRISManager) (i : nat) : MPRISManager :=
  connect (with_primary (fst (disconnect m (primary_player m))) (Some i)) i.

Definition mpv : str := $"org.mpris.MediaPlayer2.mpv".

Definition song_bus (status : str) : remote_t :=
  {| get_Metadata := Some [($"xesam:title", VStr $"Song");
                           ($"xesam:artist", VList [$"Band"]);
                           ($"xesam:album", VStr $"X")];
     get_PlaybackStatus := Some status |}.

(** Two players on the bus when the manager starts: the first stopped, the
    second paused. *)
Definition two_players : MPRISManager :=
  populate_players (empty_manager default_format)
    [(vlc, $":1.5", song_bus $"Stopped"); (mpv, $":1.9", song_bus $"Paused")].

(** A player is found playing when the manager starts, then leaves the
    bus. *)
Definition departure_run : list op :=
  [OpPopulate [(vlc, $":1.5", song_bus $"Playing")];
   OpUpdatePlayers;
   OpNameOwnerChanged vlc $":1.5" $"" no_bus].

Definition after_departure : MPRISManager :=
  run (empty_manager default_format) departure_run.

(** ** Templates

    A template as the default one is built: literal text without an opening
    brace, the three tags, and the opening and closing markers of the two
    blocks. *)
Inductive block := Playing | Paused.

Definition block_name (b : block) : str :=
  match b with
  | Playing => $"playing"
  | Paused => $"paused"
  end.

Inductive token :=
| Tag (f : field)
| Begin (b : block)
| End (b : block).

Definition token_str (t : token) : str :=
  match t with
  | Tag f => tag_token (field_name f)
  | Begin b => block_begin (block_name b)
  | End b => block_end (block_name b)
  end.

Inductive item :=
| Text (s : str)
| Tok (t : token).

Definition item_str (it : item) : str :=
  match it with
  | Text s => s
  | Tok t => token_str t
  end.

Definition flatten (its : list item) : str := flat_map item_str its.

(** No opening brace in the string. *)
Definition plain (s : str) : Prop := ~ In "{"%char s.

Definition template_ok (its : list item) : Prop :=
  forall s, In (Text s) its -> plain s.

Definition no_marker (b : block) (its : list item) : Prop :=
  ~ In (Tok (Begin b)) its /\ ~ In (Tok (End b)) its.

(** The block occurs exactly once: its opening marker, then its closing
    marker, and neither of them anywhere else. *)
Definition one_block (b : block) (its : list item) : Prop :=
  exists A M C,
    its = A ++ Tok (Begin b) :: M ++ Tok (End b) :: C
    /\ no_marker b A /\ no_marker b M /\ no_marker b C.

Definition token_eqb (t u : token) : bool :=
  match t, u with
  | Tag f, Tag g => field_eqb f g
  | Begin Playing, Begin Playing | Begin Paused, Begin Paused
  | End Playing, End Playing | End Paused, End Paused => true
  | _, _ => false
  end.

(** The template with every [Tok t0] turned into the text [new]. *)
Definition subst (t0 : token) (new : str) (its : list item) : list item :=
  map (fun it =>
         match it with
         | Tok t => if token_eqb t t0 then Text new else Tok t
         | Text s => Text s
         end) its.

Definition default_items : list item :=
  [Tok (Begin Playing); Text $"Playing: "; Tok (End Playing);
   Tok (Begin Paused); Text $"Paused: "; Tok (End Paused);
   Tok (Tag Artist); Text $" - "; Tok (Tag Title)].

(** A template with the "paused" block twice. *)
Definition two_paused_blocks : str :=
  $"{{paused}}a{{/paused}}{{paused}}b{{/paused}}".

(** The template with every tag turned into the text given for its field. *)
Definition fill (val : field -> str) (its : list item) : list item :=
  map (fun it =>
         match it with
         | Tok (Tag f) => Text (val f)
         | _ => it
         end) its.

(** The template without the opening and closing markers of a block. *)
Definition is_marker (b : block) (it : item) : bool :=
  match it with
  | Tok t => token_eqb t (Begin b) || token_eqb t (End b)
  | Text _ => false
  end.

Definition drop_markers (b : block) (its : list item) : list item :=
  filter (fun it => negb (is_marker b it)) its.

(** The word printed in front by the default format. *)
Definition state_word (playing : option bool) : str :=
  if truthy playing then $"Playing: " else $"Paused: ".

Definition song_val (f : field) : str :=
  match f with Title => $"Song" | Artist => $"Band" | Album => $"X" end.

(** The format [{{artist}} - {{title}}], item by item. *)
Definition plain_items : list item :=
  [Tok (Tag Artist); Text $" - "; Tok (Tag Title)].

(** Two players on the bus when the manager starts, the first playing and
    the second paused; the manager as [__init__] leaves it. *)
Definition two_active : MPRISManager :=
  fst (new_manager default_format
         [(vlc, $":1.5", song_bus $"Playing"); (mpv, $":1.9", song_bus $"Paused")]).

(** The answers of a player whose playback state the manager cannot tell:
    a read fails, or the status is neither [Playing] nor [Paused]. *)
Definition reply_unknown (bus : remote_t) : Prop :=
  match get_Metadata bus, get_PlaybackStatus bus with
  | Some _, Some s => playback_of s = None
  | _, _ => True
  end.

(** The owners that have an entry, in the order of the registry. *)
Definition owners (m : MPRISManager) : list str := map fst (players m).
(** * Properties *)

(** ** Sanity checks of the string functions and of the renderer *)

Example replace_ex1 : replace $"aXXbXXX" $"XX" $"-" = $"a-b-X".
Proof. reflexivity. Qed.

Example replace_ex2 : replace $"abc" $"" $"-" = $"-a-b-c-".
Proof. reflexivity. Qed.

Example find_ex1 : find $"hello" $"lo" = 3%Z /\ find $"hello" $"x" = (-1)%Z.
Proof. split; reflexivity. Qed.

Example slice_ex1 :
  slice_to $"hello" (-1) = $"hell" /\ slice_from $"hello" 3 = $"lo"
  /\ slice_from $"hello" 9 = $"" /\ slice_to $"" (-1) = $"".
Proof. repeat split; reflexivity. Qed.

Example status_text_playing :
  status_text default_format song_metadata (Some true) = Ok $"Playing: Band - Song".
Proof. reflexivity. Qed.

Example status_text_paused :
  status_text default_format song_metadata None = Ok $"Paused: Band - Song".
Proof. reflexivity. Qed.

(** ** Equality tests *)

Lemma str_eqb_refl (a : str) : str_eqb a a = true.
Proof.
  induction a as [|c a IH]; simpl; [reflexivity|].
  now rewrite Ascii.eqb_refl, IH.
Qed.

Lemma str_eqb_eq (a b : str) : str_eqb a b = true <-> a = b.
Proof.
  split; [|intros ->; apply str_eqb_refl].
  revert b; induction a as [|x a IH]; intros [|y b]; simpl; try discriminate; auto.
  intros H; apply andb_true_iff in H as [Hc Hr].
  apply Ascii.eqb_eq in Hc; subst; f_equal; auto.
Qed.

Lemma str_eqb_neq (a b : str) : str_eqb a b = false <-> a <> b.
Proof.
  split.
  - intros H E; apply str_eqb_eq in E; congruence.
  - intros H; destruct (str_eqb a b) eqn:E; [|reflexivity].
    apply str_eqb_eq in E; contradiction.
Qed.

Lemma value_eqb_eq (a b : value) : value_eqb a b = true <-> a = b.
Proof.
  split.
  - destruct a as [x|x], b as [y|y]; simpl; try discriminate.
    + intros H; apply str_eqb_eq in H; now subst.
    + revert y; induction x as [|u x IH]; intros [|v y]; try discriminate; auto.
      intros H; apply andb_true_iff in H as [Hu Hr].
      apply str_eqb_eq in Hu; subst.
      specialize (IH _ Hr); congruence.
  - intros ->; destruct b as [y|y]; simpl; [apply str_eqb_refl|].
    induction y as [|v y IH]; [reflexivity|].
    now rewrite str_eqb_refl, IH.
Qed.

Lemma value_eqb_neq (a b : value) : value_eqb a b = false <-> a <> b.
Proof.
  split.
  - intros H E; apply value_eqb_eq in E; congruence.
  - intros H; destruct (value_eqb a b) eqn:E; [|reflexivity].
    apply value_eqb_eq in E; contradiction.
Qed.

Lemma opt_str_eqb_eq (a : option str) (b : str) :
  opt_str_eqb a b = true <-> a = Some b.
Proof.
  destruct a as [x|]; simpl.
  - rewrite str_eqb_eq; split; congruence.
  - split; discriminate.
Qed.

(** ** Change notifications *)

Lemma store_set_same (s : list MPRISPlayer) (i : nat) (p : MPRISPlayer) :
  nth_error s i = Some p -> store_set s i p = s.
Proof.
  revert i; induction s as [|q s IH]; intros [|i]; simpl; try discriminate.
  - now intros [= ->].
  - intros H; now rewrite IH.
Qed.

Lemma print_nothing (m : MPRISManager) : print m [] = m.
Proof. destruct m; unfold print; simpl; now rewrite app_nil_r. Qed.

Lemma with_store_same (m : MPRISManager) : with_store m (store m) = m.
Proof. now destruct m. Qed.

(** C10. A change notification whose changed set has the [Position] key is
    dropped whole, whatever else it carries (a [Metadata] dictionary with
    new values, a [PlaybackStatus]): [update_status] returns [False] with the
    player as it was, the handler prints nothing, and a manager to whose
    match the signal is delivered is left as it was. *)
Theorem position_event_dropped :
  forall (p : MPRISPlayer) (x : Z) (md : option (dict value))
         (ps : option str) (others : list str) (interface : str)
         (bus : remote_t) (m : MPRISManager) (t : nat),
    let cp := {| cp_Position := Some x; cp_Metadata := md;
                 cp_PlaybackStatus := ps; cp_others := others |} in
    update_status p (Some cp) bus = (p, [], false)
    /\ on_PropertiesChanged p interface cp bus = (p, [], Ok tt)
    /\ deliver m t interface cp bus = (m, Ok tt).
Proof.
  intros p x md ps others interface bus m t cp.
  assert (Hu : forall q, update_status q (Some cp) bus = (q, [], false))
    by reflexivity.
  assert (Hh : forall q, on_PropertiesChanged q interface cp bus = (q, [], Ok tt)).
  { intros q; unfold on_PropertiesChanged.
    destruct (str_eqb interface player_interface); [|reflexivity].
    now rewrite Hu. }
  repeat split; auto.
  unfold deliver.
  destruct (find_receiver t (receivers m)) as [i|]; [|reflexivity].
  destruct (nth_error (store m) i) as [q|] eqn:Hq; [|reflexivity].
  rewrite Hh, (store_set_same _ _ _ Hq), with_store_same, print_nothing.
  reflexivity.
Qed.

Lemma scan_metadata_none (md : metadata_t) (changed : dict value) :
  (forall e, In e changed -> differs md e = false) ->
  scan_metadata md changed = None.
Proof.
  induction changed as [|[key v] rest IH]; intros H; [reflexivity|].
  cbn [scan_metadata]. pose proof (H (key, v) (or_introl eq_refl)) as Hd.
  unfold differs in Hd; cbn [fst snd] in Hd.
  destruct (field_of_name (skipn 6 key)) as [f|].
  - rewrite Hd. apply IH. intros e He; apply H; now right.
  - apply IH. intros e He; apply H; now right.
Qed.

Lemma scan_metadata_first (md : metadata_t) (pre post : dict value)
  (key : str) (v : value) (f : field) :
  (forall e, In e pre -> differs md e = false) ->
  field_of_name (skipn 6 key) = Some f ->
  md_get md f <> v ->
  scan_metadata md (pre ++ (key, v) :: post) = Some (md_set md f v).
Proof.
  intros Hpre Hf Hv.
  induction pre as [|[k w] pre IH]; cbn [app scan_metadata].
  - rewrite Hf. apply value_eqb_neq in Hv. now rewrite Hv.
  - pose proof (Hpre (k, w) (or_introl eq_refl)) as Hd.
    unfold differs in Hd; cbn [fst snd] in Hd.
    destruct (field_of_name (skipn 6 k)) as [g|].
    + rewrite Hd. apply IH. intros e He; apply Hpre; now right.
    + apply IH. intros e He; apply Hpre; now right.
Qed.

Lemma md_set_get (md : metadata_t) (f g : field) (v : value) :
  md_get (md_set md f v) g = if field_eqb f g then v else md_get md g.
Proof. destruct f, g; reflexivity. Qed.

(** C5. A change notification with a [Metadata] entry and no [Position]:
    the entries are scanned in order, and the first one that names a key of
    the cache and carries a different value is the only one applied; the
    call returns [True] at once, so later entries of the same event that
    differ too stay unapplied and [is_playing] is not touched.  When no
    entry differs, the [Metadata] entry changes nothing and the result is
    decided by [PlaybackStatus] alone: [False] with the player unchanged when
    there is none. *)
Theorem metadata_event_first_difference :
  forall (p : MPRISPlayer) (cp : changed_props_t) (changed : dict value)
         (bus : remote_t),
    cp_Position cp = None ->
    cp_Metadata cp = Some changed ->
    (forall pre key v post f,
        changed = pre ++ (key, v) :: post ->
        (forall e, In e pre -> differs (metadata p) e = false) ->
        field_of_name (skipn 6 key) = Some f ->
        md_get (metadata p) f <> v ->
        let p' := set_metadata p (md_set (metadata p) f v) in
        update_status p (Some cp) bus = (p', [], true)
        /\ md_get (metadata p') f = v
        /\ (forall g, g <> f -> md_get (metadata p') g = md_get (metadata p) g)
        /\ is_playing p' = is_playing p)
    /\ ((forall e, In e changed -> differs (metadata p) e = false) ->
        update_status p (Some cp) bus =
          match cp_PlaybackStatus cp with
          | Some s => (set_is_playing p (playback_of s), [], true)
          | None => (p, [], false)
          end
        /\ metadata (fst (fst (update_status p (Some cp) bus))) = metadata p).
Proof.
  intros p cp changed bus Hpos Hmd.
  assert (Hne : cp_nonempty cp = true).
  { unfold cp_nonempty. rewrite Hpos, Hmd. reflexivity. }
  split.
  - intros pre key v post f -> Hpre Hf Hv p'.
    repeat split.
    + unfold update_status, update_status_changed.
      rewrite Hne, Hpos, Hmd.
      now rewrite (scan_metadata_first _ _ _ _ _ _ Hpre Hf Hv).
    + simpl. rewrite md_set_get. now destruct f.
    + intros g Hg. simpl. rewrite md_set_get.
      destruct f, g; simpl; congruence.
  - intros Hall.
    assert (E : update_status p (Some cp) bus =
                match cp_PlaybackStatus cp with
                | Some s => (set_is_playing p (playback_of s), [], true)
                | None => (p, [], false)
                end).
    { unfold update_status, update_status_changed.
      rewrite Hne, Hpos, Hmd, (scan_metadata_none _ _ Hall).
      now destruct (cp_PlaybackStatus cp). }
    split; [exact E|].
    rewrite E. now destruct (cp_PlaybackStatus cp).
Qed.

Lemma metadata_event_first_difference_witness :
  cp_Position track_change = None
  /\ cp_Metadata track_change
     = Some ([] ++ ($"xesam:title", VStr $"Song") :: [($"xesam:album", VStr $"Y")])
  /\ update_status blank_player (Some track_change) no_bus
     = (set_metadata blank_player
          {| title := VStr $"Song"; artist := VList []; album := VStr [] |},
        [], true).
Proof.
  split; [reflexivity|]. split; [reflexivity|].
  refine (proj1 (proj1 (metadata_event_first_difference
                   blank_player track_change _ no_bus eq_refl eq_refl)
                 [] $"xesam:title" (VStr $"Song") [($"xesam:album", VStr $"Y")]
                 Title eq_refl _ eq_refl _)).
  - intros e [].
  - discriminate.
Defined.

(** When no entry of [Metadata] differs (or there is none), a
    [PlaybackStatus] entry is applied: ["Playing"] gives [True], ["Paused"]
    gives [False], anything else [None], and the call returns [True] even if
    that is the value already cached. *)
Lemma playback_event_applied (p : MPRISPlayer) (cp : changed_props_t)
  (s : str) (bus : remote_t) :
  cp_Position cp = None ->
  cp_PlaybackStatus cp = Some s ->
  match cp_Metadata cp with
  | Some changed => forall e, In e changed -> differs (metadata p) e = false
  | None => True
  end ->
  update_status p (Some cp) bus = (set_is_playing p (playback_of s), [], true).
Proof.
  intros Hpos Hps Hmd.
  assert (Hne : cp_nonempty cp = true).
  { unfold cp_nonempty. rewrite Hpos, Hps. now destruct (cp_Metadata cp). }
  unfold update_status, update_status_changed. rewrite Hne, Hpos, Hps.
  destruct (cp_Metadata cp) as [changed|]; [|reflexivity].
  now rewrite (scan_metadata_none _ _ Hmd).
Qed.

Lemma playback_of_cases :
  playback_of $"Playing" = Some true
  /\ playback_of $"Paused" = Some false
  /\ playback_of $"Stopped" = None
  /\ forall s, s <> $"Playing" -> s <> $"Paused" -> playback_of s = None.
Proof.
  repeat split.
  intros s H1 H2. unfold playback_of.
  apply str_eqb_neq in H1, H2. now rewrite H1, H2.
Qed.

(** C6. An event that carries [PlaybackStatus] together with a [Metadata]
    entry that differs from the cache: [update_status] returns from inside
    the metadata loop, and the playback status of the event is never looked
    at.  Here the player stays at [None] although the event says
    ["Playing"]; the event is still reported as an update. *)
Theorem playback_status_lost_after_metadata :
  cp_Position track_change = None
  /\ cp_PlaybackStatus track_change = Some $"Playing"
  /\ playback_of $"Playing" = Some true
  /\ update_status blank_player (Some track_change) no_bus
     = (set_metadata blank_player
          {| title := VStr $"Song"; artist := VList []; album := VStr [] |},
        [], true)
  /\ is_playing (fst (fst (update_status blank_player (Some track_change) no_bus)))
     = None.
Proof. repeat split. Qed.

(** ** Full update *)

(** C3, as the code has it.  A full update ([update_status] without changed
    properties, or with an empty dictionary of them) whose first read, the
    one of [Metadata], fails leaves the player as it was; one whose second
    read, of [PlaybackStatus], fails has by then overwritten the cached
    metadata with what the first read returned (the empty string for an
    absent key) and leaves [is_playing] alone.  Both print
    [METADATA UNAVAILABLE] and return [False]. *)
Theorem full_update_failure :
  forall (p : MPRISPlayer) (ps : option str) (raw : dict value),
    let first_fails := {| get_Metadata := None; get_PlaybackStatus := ps |} in
    let second_fails := {| get_Metadata := Some raw; get_PlaybackStatus := None |} in
    update_status p None first_fails = (p, [$"METADATA UNAVAILABLE"], false)
    /\ update_status p None second_fails
       = (set_metadata p (fetch_metadata raw), [$"METADATA UNAVAILABLE"], false)
    /\ is_playing (set_metadata p (fetch_metadata raw)) = is_playing p
    /\ (forall f, md_get (fetch_metadata raw) f
                  = match dict_get raw ($"xesam:" ++ field_name f) with
                    | Some v => v
                    | None => VStr []
                    end)
    /\ (forall bus,
          update_status p (Some {| cp_Position := None; cp_Metadata := None;
                                   cp_PlaybackStatus := None; cp_others := [] |})
                        bus
          = update_status p None bus).
Proof.
  intros p ps raw first_fails second_fails. repeat split.
  intros f; now destruct f.
Qed.

(** C3 as stated fails: the first read succeeds, the second fails, and the
    cached metadata is no longer what it was. *)
Lemma full_update_not_atomic :
  let bus := {| get_Metadata := Some [($"xesam:title", VStr $"Other")];
                get_PlaybackStatus := None |} in
  let '(p', out, updated) := update_status song_player None bus in
  updated = false
  /\ out = [$"METADATA UNAVAILABLE"]
  /\ metadata song_player
     = {| title := VStr $"Song"; artist := VList [$"Band"]; album := VStr $"X" |}
  /\ metadata p'
     = {| title := VStr $"Other"; artist := VStr []; album := VStr [] |}
  /\ metadata p' <> metadata song_player.
Proof. cbv zeta. simpl. repeat split. discriminate. Qed.

(** ** Tag substitution *)

(** C9. [replace_tag] on a metadata dictionary whose ['artist'] is the empty
    list, which is what [__init__] puts there: whatever the template and the
    other two values, the call raises [IndexError] (from
    [value_dict[tag_name][0]]) and no string is produced. *)
Theorem replace_tag_empty_artist :
  forall (original : str) (t al : value),
    replace_tag original {| title := t; artist := VList []; album := al |}
    = Raise IndexError
    /\ replace_tag $"{{artist}}" (metadata blank_player) = Raise IndexError
    /\ print_status blank_player = (blank_player, [], Raise IndexError).
Proof.
  intros original t al. repeat split.
  unfold replace_tag, md_items; simpl.
  destruct t as [s|[|x l]]; reflexivity.
Qed.

(** With a string, or a list that has a first element, in each of the three
    values, [replace_tag] returns: the three tags are replaced one after the
    other, a list by its first element. *)
Lemma replace_tag_total (original : str) (md : metadata_t) (t a al : str) :
  tag_value (title md) = Ok t ->
  tag_value (artist md) = Ok a ->
  tag_value (album md) = Ok al ->
  replace_tag original md
  = Ok (replace (replace (replace original $"{{title}}" t) $"{{artist}}" a)
                $"{{album}}" al).
Proof.
  intros Ht Ha Hal. unfold replace_tag, md_items. simpl.
  rewrite Ht; simpl. rewrite Ha; simpl. rewrite Hal; reflexivity.
Qed.

(** ** Duplicate suppression *)

(** X26. When the status text can be built, two calls of [print_status] in
    a row on a player whose [prev_content] is not already that text (an
    empty cache, as [__init__] leaves it, is one) print it once: the first
    call prints it and stores it in [prev_content], the second finds it
    there and prints nothing, leaving the player as the first call left it.
    On a player whose [prev_content] already is the text, neither call
    prints. *)
Theorem print_status_twice_once :
  forall (p : MPRISPlayer) (r : str),
    status_text (format_string p) (metadata p) (is_playing p) = Ok r ->
    (prev_content p <> Some r ->
     print_status p = (set_prev_content p (Some r), [r], Ok tt)
     /\ print_status (set_prev_content p (Some r))
        = (set_prev_content p (Some r), [], Ok tt)
     /\ print_status_twice p = [r])
    /\ (prev_content p = Some r ->
        print_status p = (p, [], Ok tt) /\ print_status_twice p = []).
Proof.
  intros p r Hr.
  assert (H2 : print_status (set_prev_content p (Some r))
               = (set_prev_content p (Some r), [], Ok tt)).
  { unfold print_status; simpl. rewrite Hr. simpl. now rewrite str_eqb_refl. }
  split.
  - intros Hne.
    assert (H1 : print_status p = (set_prev_content p (Some r), [r], Ok tt)).
    { unfold print_status. rewrite Hr.
      destruct (opt_str_eqb (prev_content p) r) eqn:E; [|reflexivity].
      apply opt_str_eqb_eq in E. contradiction. }
    repeat split; auto.
    unfold print_status_twice. now rewrite H1, H2.
  - intros He.
    assert (H1 : print_status p = (p, [], Ok tt)).
    { unfold print_status. rewrite Hr.
      apply opt_str_eqb_eq in He. now rewrite He. }
    split; auto.
    unfold print_status_twice. now rewrite H1, H1.
Qed.

Lemma print_status_twice_once_witness :
  status_text (format_string song_player) (metadata song_player)
              (is_playing song_player) = Ok $"Playing: Band - Song"
  /\ prev_content song_player <> Some $"Playing: Band - Song"
  /\ print_status_twice song_player = [$"Playing: Band - Song"].
Proof.
  split; [reflexivity|]. split; [discriminate|].
  refine (proj2 (proj2 (proj1 (print_status_twice_once song_player
                                 $"Playing: Band - Song" eq_refl) _))).
  discriminate.
Defined.

(** C8.  Two calls of [print_status] in a row on a player whose ['artist']
    is the empty list, which is what [__init__] puts there, with an empty
    cache or any other: building the status text raises [IndexError] in
    [replace_tag], each call ends there, the player is left as it was, and no
    line is printed at all, where one is expected.  Whatever the format, the
    other two values and the playback state. *)
Theorem print_status_twice_empty_artist :
  forall (name fmt : str) (conn : option nat) (playing : option bool)
         (t al : value) (prev : option str),
    let p := {| bus_name := name; format_string := fmt; connection := conn;
                is_playing := playing;
                metadata := {| title := t; artist := VList []; album := al |};
                prev_content := prev |} in
    print_status p = (p, [], Raise IndexError)
    /\ print_status_twice p = []
    /\ print_status blank_player = (blank_player, [], Raise IndexError)
    /\ print_status_twice blank_player = [].
Proof.
  intros name fmt conn playing t al prev p.
  assert (H : print_status p = (p, [], Raise IndexError)).
  { unfold print_status, status_text, replace_tag, md_items.
    cbn [format_string metadata is_playing p map fields md_get title artist
         album replace_tag_loop].
    destruct t as [s|[|x l]]; reflexivity. }
  split; [exact H|]. split; [|split; reflexivity].
  unfold print_status_twice. now rewrite H, H.
Qed.

(** ** The registry *)

Lemma dict_set_in {V} (d : dict V) (k k' : str) (v v' : V) :
  In (k', v') (dict_set d k v) -> In (k', v') d \/ v' = v.
Proof.
  induction d as [|[k0 v0] d IH]; simpl.
  - intros [[= _ <-]|[]]; now right.
  - destruct (str_eqb k0 k).
    + intros [[= _ <-]|H]; [now right|left; now right].
    + intros [H|H]; [left; now left|].
      destruct (IH H); [left; now right|now right].
Qed.

Lemma dict_del_in {V} (d : dict V) (k : str) (e : str * V) :
  In e (dict_del d k) -> In e d.
Proof.
  induction d as [|[k0 v0] d IH]; simpl; [tauto|].
  destruct (str_eqb k0 k); [now right|].
  intros [H|H]; [now left|right; auto].
Qed.

Lemma dict_get_in {V} (d : dict V) (k : str) (v : V) :
  dict_get d k = Some v -> In (k, v) d.
Proof.
  induction d as [|[k0 v0] d IH]; simpl; [discriminate|].
  destruct (str_eqb k0 k) eqn:E.
  - apply str_eqb_eq in E; subst. intros [= ->]; now left.
  - intros H; right; auto.
Qed.

Lemma store_set_length (s : list MPRISPlayer) (i : nat) (p : MPRISPlayer) :
  List.length (store_set s i p) = List.length s.
Proof.
  revert i; induction s as [|q s IH]; intros [|i]; simpl; auto.
Qed.

Lemma store_set_eq (s : list MPRISPlayer) (i : nat) (p : MPRISPlayer) :
  i < List.length s -> nth_error (store_set s i p) i = Some p.
Proof.
  revert i; induction s as [|q s IH]; intros [|i]; simpl; try lia; auto.
  intros H; apply IH; lia.
Qed.

Lemma store_set_neq (s : list MPRISPlayer) (i j : nat) (p : MPRISPlayer) :
  i <> j -> nth_error (store_set s i p) j = nth_error s j.
Proof.
  revert i j; induction s as [|q s IH]; intros [|i] [|j]; simpl; auto; try congruence.
Qed.

Lemma nth_error_lt (s : list MPRISPlayer) (i : nat) (p : MPRISPlayer) :
  nth_error s i = Some p -> i < List.length s.
Proof. intros H; apply nth_error_Some; congruence. Qed.

(** *** Each operation keeps a manager well formed *)

Lemma add_player_wf (m : MPRISManager) (name owner : str) (bus : remote_t) :
  mgr_wf m -> mgr_wf (add_player m name owner bus).
Proof.
  intros [Hreg Hsub]. unfold add_player.
  destruct (new_player name (mgr_format m) bus) as [p out].
  split.
  - intros o i Hin; simpl in *. rewrite length_app; simpl.
    apply dict_set_in in Hin as [Hin| ->]; [|lia].
    specialize (Hreg _ _ Hin); lia.
  - unfold subscription_ok in *; simpl.
    destruct (primary_player m) as [i|]; [|assumption].
    destruct Hsub as (q & t & Hq & Hc & Hr).
    exists q, t; repeat split; auto.
    rewrite nth_error_app1; [assumption|eapply nth_error_lt; eauto].
Qed.

Lemma populate_players_wf (names : bus_t) (m : MPRISManager) :
  mgr_wf m -> mgr_wf (populate_players m names).
Proof.
  revert m; induction names as [|[[name owner] bus] rest IH]; intros m H; simpl; auto.
  destruct (is_player_bus name); auto using add_player_wf.
Qed.

Lemma del_player_wf (m : MPRISManager) (owner : str) :
  mgr_wf m -> mgr_wf (fst (del_player m owner)).
Proof.
  intros [Hreg Hsub]. unfold del_player.
  destruct (dict_mem (players m) owner); simpl; [|now split].
  split; [|exact Hsub].
  intros o i Hin; simpl in Hin. apply dict_del_in in Hin. eauto.
Qed.

Lemma change_owner_wf (m : MPRISManager) (old_owner new_owner : str) :
  mgr_wf m -> mgr_wf (fst (change_owner m old_owner new_owner)).
Proof.
  intros [Hreg Hsub]. unfold change_owner.
  destruct (dict_get (players m) old_owner) as [temp|] eqn:E; simpl; [|now split].
  split; [|exact Hsub].
  intros o i Hin; simpl in Hin.
  apply dict_set_in in Hin as [Hin| ->].
  - apply dict_del_in in Hin. eauto.
  - apply dict_get_in in E. eauto.
Qed.

Lemma same_player_true (a : option nat) (i : nat) :
  same_player a i = true <-> a = Some i.
Proof.
  destruct a as [j|]; simpl; [|split; discriminate].
  rewrite Nat.eqb_eq. split; congruence.
Qed.

Lemma disconnect_primary (m : MPRISManager) :
  subscription_ok m ->
  disconnect m (primary_player m)
  = (with_receivers m [] (next_match m), Ok tt).
Proof.
  unfold subscription_ok, disconnect.
  destruct (primary_player m) as [i|].
  - intros (p & t & -> & -> & Hr). rewrite Hr; simpl.
    now rewrite Nat.eqb_refl.
  - intros Hr. rewrite <- Hr. now destruct m.
Qed.

Lemma switch_to_eq (m : MPRISManager) (i : nat) (p : MPRISPlayer) :
  subscription_ok m ->
  nth_error (store m) i = Some p ->
  switch_to m i
  = {| mgr_format := mgr_format m;
       store := store_set (store m) i (set_connection p (Some (next_match m)));
       players := players m;
       primary_player := Some i;
       receivers := [(next_match m, i)];
       next_match := S (next_match m);
       stdout := stdout m |}.
Proof.
  intros Hsub Hp. unfold switch_to.
  rewrite (disconnect_primary _ Hsub). unfold connect; simpl.
  now rewrite Hp.
Qed.

Lemma switch_to_wf (m : MPRISManager) (i : nat) (p : MPRISPlayer) :
  mgr_wf m -> nth_error (store m) i = Some p -> mgr_wf (switch_to m i).
Proof.
  intros [Hreg Hsub] Hp. rewrite (switch_to_eq _ _ _ Hsub Hp).
  split.
  - intros o j Hin; simpl in *. rewrite store_set_length. eauto.
  - unfold subscription_ok; simpl.
    exists (set_connection p (Some (next_match m))), (next_match m).
    repeat split. apply store_set_eq. eapply nth_error_lt; eauto.
Qed.

(** [update_players] in one equation: the first entry with a known playback
    state decides. *)
Lemma update_players_loop_eq (m : MPRISManager) (items : dict nat) :
  subscription_ok m ->
  update_players_loop m items
  = match first_active (store m) items with
    | Some i =>
        if same_player (primary_player m) i then (m, Ok tt)
        else (switch_to m i, Ok tt)
    | None => (print m [$"NO ACTIVE PLAYERS"], Ok tt)
    end.
Proof.
  intros Hsub. induction items as [|[o i] rest IH]; simpl; [reflexivity|].
  destruct (nth_error (store m) i) as [p|]; [|exact IH].
  destruct (is_playing p); [|exact IH].
  destruct (same_player (primary_player m) i); [reflexivity|].
  unfold switch_to. now rewrite (disconnect_primary _ Hsub).
Qed.

Lemma first_active_some (s : list MPRISPlayer) (items : dict nat) (i : nat) :
  first_active s items = Some i -> playback_known s i.
Proof.
  induction items as [|[o j] rest IH]; simpl; [discriminate|].
  destruct (nth_error s j) as [p|] eqn:Hp; auto.
  destruct (is_playing p) as [b|] eqn:Hb; auto.
  intros [= <-]. now exists p, b.
Qed.

Lemma first_active_split (s : list MPRISPlayer) (pre post : dict nat)
  (owner : str) (i : nat) :
  (forall o j, In (o, j) pre -> playback_unknown s j) ->
  playback_known s i ->
  first_active s (pre ++ (owner, i) :: post) = Some i.
Proof.
  intros Hpre (p & b & Hp & Hb).
  induction pre as [|[o j] pre IH]; simpl.
  - now rewrite Hp, Hb.
  - destruct (Hpre o j (or_introl eq_refl)) as (q & Hq & Hn).
    rewrite Hq, Hn. apply IH. intros o' j' H; apply (Hpre o' j'); now right.
Qed.

Lemma first_active_none (s : list MPRISPlayer) (items : dict nat) :
  (forall o j, In (o, j) items -> playback_unknown s j) ->
  first_active s items = None.
Proof.
  induction items as [|[o j] rest IH]; intros H; simpl; [reflexivity|].
  destruct (H o j (or_introl eq_refl)) as (q & Hq & Hn).
  rewrite Hq, Hn. apply IH. intros o' j' H'; apply (H o' j'); now right.
Qed.

Lemma print_wf (m : MPRISManager) (lines : list str) :
  mgr_wf m -> mgr_wf (print m lines).
Proof. intros [Hreg Hsub]; split; assumption. Qed.

Lemma update_players_wf (m : MPRISManager) :
  mgr_wf m -> mgr_wf (fst (update_players m)).
Proof.
  intros H. unfold update_players.
  rewrite update_players_loop_eq by apply H.
  destruct (first_active (store m) (players m)) as [i|] eqn:E.
  - destruct (same_player (primary_player m) i); simpl; [assumption|].
    apply first_active_some in E as (p & b & Hp & _).
    eapply switch_to_wf; eauto.
  - simpl. now apply print_wf.
Qed.

(** C4. The re-selection pass of a well-formed manager.  Let the registry,
    in insertion order, be some entries whose players all have an unknown
    playback state ([is_playing] is [None]), then an entry whose player is
    playing or paused, then anything.  If that player is the primary one
    already, [update_players] changes nothing.  Otherwise it becomes the
    primary player: the old primary's signal match is removed, the new
    player gets the only live one, and the registry and the output stay as
    they were.  When every entry is unknown, the pass only prints
    [NO ACTIVE PLAYERS]. *)
Theorem update_players_first_active :
  forall (m : MPRISManager),
    mgr_wf m ->
    (forall pre owner i post,
        players m = pre ++ (owner, i) :: post ->
        (forall o j, In (o, j) pre -> playback_unknown (store m) j) ->
        playback_known (store m) i ->
        (primary_player m = Some i -> update_players m = (m, Ok tt))
        /\ (primary_player m <> Some i ->
            exists m',
              update_players m = (m', Ok tt)
              /\ primary_player m' = Some i
              /\ players m' = players m
              /\ receivers m' = [(next_match m, i)]
              /\ stdout m' = stdout m
              /\ mgr_wf m'))
    /\ ((forall o j, In (o, j) (players m) -> playback_unknown (store m) j) ->
        update_players m = (print m [$"NO ACTIVE PLAYERS"], Ok tt)).
Proof.
  intros m Hwf. pose proof Hwf as [Hreg Hsub]. split.
  - intros pre owner i post Hpl Hpre Hi.
    unfold update_players. rewrite update_players_loop_eq by assumption.
    rewrite Hpl, (first_active_split _ _ _ _ _ Hpre Hi).
    split.
    + intros Hp. apply same_player_true in Hp. now rewrite Hp.
    + intros Hp.
      destruct (same_player (primary_player m) i) eqn:E.
      { apply same_player_true in E. contradiction. }
      destruct Hi as (p & b & Hi & _).
      exists (switch_to m i). split; [reflexivity|].
      pose proof (switch_to_wf _ _ _ Hwf Hi) as Hwf'.
      rewrite (switch_to_eq _ _ _ Hsub Hi) in *. simpl.
      repeat split; auto; apply Hwf'.
  - intros Hall. unfold update_players.
    rewrite update_players_loop_eq by assumption.
    now rewrite (first_active_none _ _ Hall).
Qed.

Lemma empty_manager_wf (fmt : str) : mgr_wf (empty_manager fmt).
Proof. split; [intros o i []|reflexivity]. Qed.

Example two_players_scenario :
  players two_players = [($":1.5", 0); ($":1.9", 1)]
  /\ map is_playing (store two_players) = [None; Some false]
  /\ primary_player two_players = None
  /\ primary_player (fst (update_players two_players)) = Some 1
  /\ receivers (fst (update_players two_players)) = [(0, 1)].
Proof. repeat split. Qed.

Lemma update_players_first_active_witness :
  mgr_wf two_players
  /\ players two_players = [($":1.5", 0)] ++ ($":1.9", 1) :: []
  /\ (forall o j, In (o, j) [($":1.5", 0)] -> playback_unknown (store two_players) j)
  /\ playback_known (store two_players) 1
  /\ primary_player two_players <> Some 1
  /\ primary_player (fst (update_players two_players)) = Some 1.
Proof.
  assert (Hwf : mgr_wf two_players)
    by (apply populate_players_wf, empty_manager_wf).
  assert (Hpre : forall o j, In (o, j) [($":1.5", 0)] ->
                             playback_unknown (store two_players) j).
  { intros o j [[= _ <-]|[]]. eexists; split; reflexivity. }
  assert (Hk : playback_known (store two_players) 1).
  { eexists; eexists; split; reflexivity. }
  assert (Hne : primary_player two_players <> Some 1) by discriminate.
  split; [exact Hwf|]. split; [reflexivity|]. split; [exact Hpre|].
  split; [exact Hk|]. split; [exact Hne|].
  destruct (proj2 (proj1 (update_players_first_active two_players Hwf)
                     [($":1.5", 0)] $":1.9" 1 [] eq_refl Hpre Hk) Hne)
    as (m' & Hup & Hprim & _).
  rewrite Hup. exact Hprim.
Defined.

Lemma update_status_connection (p : MPRISPlayer) (cp : option changed_props_t)
  (bus : remote_t) :
  connection (fst (fst (update_status p cp bus))) = connection p.
Proof.
  assert (Hfull : connection (fst (fst (update_status_full p bus))) = connection p).
  { unfold update_status_full.
    destruct (get_Metadata bus); [|reflexivity].
    destruct (get_PlaybackStatus bus); reflexivity. }
  destruct cp as [cp|]; simpl; [|exact Hfull].
  destruct (cp_nonempty cp); [|exact Hfull].
  unfold update_status_changed.
  destruct (cp_Position cp); [reflexivity|].
  destruct (match cp_Metadata cp with
            | Some changed => scan_metadata (metadata p) changed
            | None => None
            end); [reflexivity|].
  destruct (cp_PlaybackStatus cp); reflexivity.
Qed.

Lemma print_status_connection (p : MPRISPlayer) :
  connection (fst (fst (print_status p))) = connection p.
Proof.
  unfold print_status.
  destruct (status_text _ _ _); [|reflexivity].
  destruct (opt_str_eqb _ _); reflexivity.
Qed.

Lemma on_PropertiesChanged_connection (p : MPRISPlayer) (interface : str)
  (cp : changed_props_t) (bus : remote_t) :
  connection (fst (fst (on_PropertiesChanged p interface cp bus))) = connection p.
Proof.
  unfold on_PropertiesChanged.
  destruct (str_eqb interface player_interface); [|reflexivity].
  pose proof (update_status_connection p (Some cp) bus) as H1.
  destruct (update_status p (Some cp) bus) as [[p1 out1] updated]; simpl in H1.
  destruct updated; [|exact H1].
  pose proof (print_status_connection p1) as H2.
  destruct (print_status p1) as [[p2 out2] r]; simpl in *. congruence.
Qed.

Lemma deliver_wf (m : MPRISManager) (t : nat) (interface : str)
  (cp : changed_props_t) (bus : remote_t) :
  mgr_wf m -> mgr_wf (fst (deliver m t interface cp bus)).
Proof.
  intros [Hreg Hsub]. unfold deliver.
  destruct (find_receiver t (receivers m)) as [i|]; [|now split].
  destruct (nth_error (store m) i) as [p|] eqn:Hp; [|now split].
  pose proof (on_PropertiesChanged_connection p interface cp bus) as Hc.
  destruct (on_PropertiesChanged p interface cp bus) as [[p' out] r].
  simpl in Hc. simpl. split.
  - intros o j Hin; simpl in *. rewrite store_set_length. eauto.
  - unfold subscription_ok in *; simpl.
    destruct (primary_player m) as [j|]; [|assumption].
    destruct Hsub as (q & t0 & Hq & Hcq & Hr).
    destruct (Nat.eq_dec i j) as [->|Hij].
    + exists p', t0. repeat split; auto.
      * apply store_set_eq. eapply nth_error_lt; eauto.
      * congruence.
    + exists q, t0. repeat split; auto.
      now rewrite store_set_neq.
Qed.

Lemma print_primary_wf (m : MPRISManager) :
  mgr_wf m -> mgr_wf (fst (print_primary m)).
Proof.
  intros [Hreg Hsub]. unfold print_primary.
  destruct (primary_player m) as [i|] eqn:Hi; [|now split].
  destruct (nth_error (store m) i) as [p|] eqn:Hp; [|now split].
  pose proof (print_status_connection p) as Hc.
  destruct (print_status p) as [[p' out] r]. simpl in Hc. simpl. split.
  - intros o j Hin; simpl in *. rewrite store_set_length. eauto.
  - unfold subscription_ok in *; simpl. rewrite Hi in *.
    destruct Hsub as (q & t0 & Hq & Hcq & Hr).
    exists p', t0. repeat split; auto.
    + apply store_set_eq. eapply nth_error_lt; eauto.
    + congruence.
Qed.

Lemma on_NameOwnerChanged_wf (m : MPRISManager) (name old_owner new_owner : str)
  (bus : remote_t) :
  mgr_wf m -> mgr_wf (fst (on_NameOwnerChanged m name old_owner new_owner bus)).
Proof.
  intros H. unfold on_NameOwnerChanged.
  destruct (is_player_bus name); [|assumption].
  destruct (negb (nonempty old_owner) && nonempty new_owner).
  - apply update_players_wf, add_player_wf, H.
  - destruct (negb (nonempty new_owner) && nonempty old_owner).
    + pose proof (del_player_wf m old_owner H) as H1.
      destruct (del_player m old_owner) as [m1 [u|e]]; simpl in *;
        [now apply update_players_wf|assumption].
    + pose proof (change_owner_wf m old_owner new_owner H) as H1.
      destruct (change_owner m old_owner new_owner) as [m1 [u|e]]; simpl in *;
        [now apply update_players_wf|assumption].
Qed.

Create HintDb mgr.
#[local] Hint Resolve populate_players_wf add_player_wf del_player_wf
  change_owner_wf update_players_wf on_NameOwnerChanged_wf deliver_wf
  print_primary_wf : mgr.

Lemma exec_wf (m : MPRISManager) (o : op) :
  mgr_wf m -> mgr_wf (fst (exec m o)).
Proof.
  intros H. destruct o; simpl; auto with mgr.
Qed.

Lemma new_manager_wf (fmt : str) (names : bus_t) :
  mgr_wf (fst (new_manager fmt names)).
Proof.
  unfold new_manager. auto using empty_manager_wf with mgr.
Qed.

Lemma run_wf (ops : list op) (m : MPRISManager) :
  mgr_wf m -> mgr_wf (run m ops).
Proof.
  revert m; induction ops as [|o ops IH]; intros m H; simpl; auto.
  apply IH, exec_wf, H.
Qed.

Lemma reachable_wf (m : MPRISManager) : reachable m -> mgr_wf m.
Proof.
  induction 1 as [fmt|m o _ IH]; [apply empty_manager_wf|now apply exec_wf].
Qed.

Lemma run_reachable (ops : list op) (m : MPRISManager) :
  reachable m -> reachable (run m ops).
Proof.
  revert m; induction ops as [|o ops IH]; intros m H; simpl; auto.
  apply IH. now constructor.
Qed.

(** C1, as the code has it.  In every state the manager can reach, by its
    operations and by the signals delivered to it, in any order: each entry
    of the registry refers to a player object the manager has created; the
    primary player is either the [NonePlayer], and then no signal match is
    alive, or a created player object that holds the one and only live
    signal match.  That object need not be an entry of the registry:
    [del_player] deletes the entry and nothing else, leaving the primary
    player and its signal match as they are. *)
Theorem reachable_one_subscription :
  forall (m : MPRISManager),
    reachable m ->
    registry_ok m
    /\ subscription_ok m
    /\ List.length (receivers m) <= 1
    /\ (forall t i, In (t, i) (receivers m) -> primary_player m = Some i)
    /\ (forall owner,
          primary_player (fst (del_player m owner)) = primary_player m
          /\ receivers (fst (del_player m owner)) = receivers m
          /\ store (fst (del_player m owner)) = store m).
Proof.
  intros m Hr. destruct (reachable_wf m Hr) as [Hreg Hsub].
  split; [exact Hreg|]. split; [exact Hsub|].
  unfold subscription_ok in Hsub.
  split; [|split].
  - destruct (primary_player m).
    + destruct Hsub as (p & t & _ & _ & ->). simpl; lia.
    + rewrite Hsub. simpl; lia.
  - intros t i Hin. destruct (primary_player m) as [j|].
    + destruct Hsub as (p & t0 & _ & _ & E). rewrite E in Hin.
      destruct Hin as [[= _ ->]|[]]. reflexivity.
    + rewrite Hsub in Hin. destruct Hin.
  - intros owner. unfold del_player.
    destruct (dict_mem (players m) owner); repeat split.
Qed.

Lemma after_departure_reachable : reachable after_departure.
Proof. apply run_reachable. constructor. Qed.

Lemma reachable_one_subscription_witness :
  reachable after_departure
  /\ subscription_ok after_departure
  /\ List.length (receivers after_departure) <= 1.
Proof.
  split; [exact after_departure_reachable|].
  pose proof (reachable_one_subscription after_departure
                after_departure_reachable) as (_ & Hsub & Hlen & _).
  split; assumption.
Defined.

(** C1 as stated fails.  The only player is primary and leaves the bus:
    [on_NameOwnerChanged] deletes its entry, [update_players] finds nothing
    and prints [NO ACTIVE PLAYERS], and the primary player is still the
    deleted one, still subscribed, with an empty registry. *)
Lemma primary_left_dangling :
  reachable after_departure
  /\ players after_departure = []
  /\ primary_player after_departure = Some 0
  /\ receivers after_departure = [(0, 0)]
  /\ stdout after_departure = [$"NO ACTIVE PLAYERS"]
  /\ ~ primary_registered after_departure.
Proof.
  split; [exact after_departure_reachable|].
  repeat split.
  intros [owner []].
Qed.

Lemma update_players_loop_players (m : MPRISManager) (items : dict nat) :
  players (fst (update_players_loop m items)) = players m.
Proof.
  induction items as [|[o i] rest IH]; simpl; [reflexivity|].
  destruct (nth_error (store m) i) as [p|]; [|exact IH].
  destruct (is_playing p); [|exact IH].
  destruct (same_player (primary_player m) i); [reflexivity|].
  unfold disconnect.
  destruct (primary_player m) as [j|]; simpl.
  - destruct (nth_error (store m) j) as [q|]; simpl.
    + destruct (connection q); simpl; [|reflexivity].
      unfold connect; simpl. now destruct (nth_error (store m) i).
    + unfold connect; simpl. now destruct (nth_error (store m) i).
  - unfold connect; simpl. now destruct (nth_error (store m) i).
Qed.

Lemma nonempty_not_nil (s : str) : nonempty s = true -> str_eqb [] s = false.
Proof. now destruct s. Qed.

(** C2.  The arrival of a player, [NameOwnerChanged(name, '', owner)], on a
    manager without players: the new player is stored under [old_owner],
    the empty string, and not under its owner.  The departure
    [NameOwnerChanged(name, owner, '')] that follows finds no entry for
    [owner]: [del_player] raises [KeyError], the handler ends there without
    reaching [update_players], and the registry keeps the entry. *)
Theorem arrival_keyed_by_old_owner :
  forall (fmt name owner : str) (bus bus' : remote_t),
    is_player_bus name = true ->
    nonempty owner = true ->
    let m1 := fst (on_NameOwnerChanged (empty_manager fmt) name [] owner bus) in
    players m1 = [([], 0)]
    /\ dict_get (players m1) owner = None
    /\ on_NameOwnerChanged m1 name owner [] bus' = (m1, Raise KeyError).
Proof.
  intros fmt name owner bus bus' Hname Howner m1.
  assert (Hp : players m1 = [([], 0)]).
  { unfold m1, on_NameOwnerChanged. rewrite Hname, Howner. simpl.
    unfold update_players. rewrite update_players_loop_players.
    unfold add_player. cbn [mgr_format empty_manager].
    now destruct (new_player name fmt bus). }
  split; [exact Hp|]. split.
  - rewrite Hp. cbn [dict_get]. now rewrite (nonempty_not_nil _ Howner).
  - unfold on_NameOwnerChanged. rewrite Hname, Howner. cbn [nonempty negb andb].
    unfold del_player, dict_mem. rewrite Hp. cbn [dict_get].
    now rewrite (nonempty_not_nil _ Howner).
Qed.

Lemma arrival_keyed_by_old_owner_witness :
  is_player_bus vlc = true
  /\ nonempty $":1.42" = true
  /\ (let m1 := fst (on_NameOwnerChanged (empty_manager default_format)
                       vlc [] $":1.42" (song_bus $"Playing")) in
      players m1 = [([], 0)]
      /\ dict_get (players m1) $":1.42" = None
      /\ on_NameOwnerChanged m1 vlc $":1.42" [] no_bus = (m1, Raise KeyError)).
Proof.
  split; [reflexivity|]. split; [reflexivity|].
  exact (arrival_keyed_by_old_owner default_format vlc $":1.42"
           (song_bus $"Playing") no_bus eq_refl eq_refl).
Defined.

(** [populate_players] files a player under its owner. *)
Example populate_keyed_by_owner :
  players (populate_players (empty_manager default_format)
             [(vlc, $":1.42", song_bus $"Playing")])
  = [($":1.42", 0)].
Proof. reflexivity. Qed.

(** ** Templates: how [replace], [find] and the slices act on them *)

Lemma token_str_head (t : token) : exists r, token_str t = "{"%char :: r.
Proof. destruct t as [[]|[]|[]]; eexists; reflexivity. Qed.

Lemma startswith_plain_head (old' s : str) (c : ascii) :
  c <> "{"%char -> startswith ("{"%char :: old') (c :: s) = false.
Proof.
  intros H; cbn [startswith].
  destruct (Ascii.eqb "{" c) eqn:E; [|reflexivity].
  apply Ascii.eqb_eq in E; congruence.
Qed.

Lemma startswith_app (p w : str) : startswith p (p ++ w) = true.
Proof.
  induction p as [|c p IH]; cbn [app startswith]; [reflexivity|].
  now rewrite Ascii.eqb_refl, IH.
Qed.

Lemma plain_cons (c : ascii) (s : str) :
  plain (c :: s) <-> c <> "{"%char /\ plain s.
Proof.
  unfold plain; simpl. split.
  - intros H; split; [intros ->; apply H; now left|intros H'; apply H; now right].
  - intros [H1 H2] [E|E]; [now apply H1|now apply H2].
Qed.

Lemma plain_app (u v : str) : plain (u ++ v) <-> plain u /\ plain v.
Proof.
  unfold plain. rewrite in_app_iff. tauto.
Qed.

Lemma replace_scan_plain (old' new u w : str) :
  plain u ->
  replace_scan ("{"%char :: old') new (u ++ w) 0
  = u ++ replace_scan ("{"%char :: old') new w 0.
Proof.
  induction u as [|c u IH]; intros H; [reflexivity|].
  apply plain_cons in H as [Hc Hu].
  cbn [app replace_scan].
  rewrite (startswith_plain_head _ _ _ Hc). now rewrite IH.
Qed.

Lemma replace_scan_token (t t0 : token) (new w : str) :
  replace_scan (token_str t0) new (token_str t ++ w) 0
  = (if token_eqb t t0 then new else token_str t)
    ++ replace_scan (token_str t0) new w 0.
Proof.
  destruct t as [[]|[]|[]], t0 as [[]|[]|[]]; reflexivity.
Qed.

Lemma replace_token (s : str) (t0 : token) (new : str) :
  replace s (token_str t0) new = replace_scan (token_str t0) new s 0.
Proof. destruct t0 as [[]|[]|[]]; reflexivity. Qed.

Lemma flatten_app (a b : list item) : flatten (a ++ b) = flatten a ++ flatten b.
Proof. apply flat_map_app. Qed.

Lemma template_ok_cons (it : item) (its : list item) :
  template_ok (it :: its)
  <-> match it with Text s => plain s | Tok _ => True end /\ template_ok its.
Proof.
  unfold template_ok; simpl. split.
  - intros H; split; [destruct it; auto|intros s Hs; apply H; now right].
  - intros [H1 H2] s [->|Hs]; auto.
Qed.

Lemma template_ok_app (a b : list item) :
  template_ok (a ++ b) <-> template_ok a /\ template_ok b.
Proof.
  unfold template_ok. split.
  - intros H; split; intros s Hs; apply H, in_app_iff; tauto.
  - intros [Ha Hb] s Hs. apply in_app_iff in Hs as [Hs|Hs]; auto.
Qed.

(** [replace] of a token acts on a template item by item. *)
Lemma replace_flatten (its : list item) (t0 : token) (new : str) :
  template_ok its ->
  replace (flatten its) (token_str t0) new = flatten (subst t0 new its).
Proof.
  rewrite replace_token.
  destruct (token_str_head t0) as [r E].
  induction its as [|[s|t] its IH]; intros H; [reflexivity| |];
    apply template_ok_cons in H as [Hs Hrest];
    cbn [flatten flat_map item_str subst map].
  - rewrite E, replace_scan_plain by assumption. rewrite <- E.
    f_equal. apply IH, Hrest.
  - rewrite replace_scan_token.
    destruct (token_eqb t t0); cbn [flat_map item_str]; f_equal; apply IH, Hrest.
Qed.

Lemma token_eqb_eq (t u : token) : token_eqb t u = true <-> t = u.
Proof.
  destruct t as [[]|[]|[]], u as [[]|[]|[]]; simpl; split;
    congruence || discriminate.
Qed.

Lemma token_eqb_refl (t : token) : token_eqb t t = true.
Proof. now apply token_eqb_eq. Qed.

Lemma token_eqb_neq (t u : token) : token_eqb t u = false <-> t <> u.
Proof.
  split.
  - intros H E; apply token_eqb_eq in E; congruence.
  - intros H; destruct (token_eqb t u) eqn:E; [|reflexivity].
    apply token_eqb_eq in E; contradiction.
Qed.

Lemma index_plain (old' u w : str) :
  plain u ->
  index ("{"%char :: old') (u ++ w)
  = option_map (Nat.add (List.length u)) (index ("{"%char :: old') w).
Proof.
  induction u as [|c u IH]; intros H.
  - cbn [app List.length]. now destruct (index _ w).
  - apply plain_cons in H as [Hc Hu].
    cbn [app index]. rewrite (startswith_plain_head _ _ _ Hc), (IH Hu).
    now destruct (index _ w).
Qed.

Lemma index_other_token (t t0 : token) (w : str) :
  token_eqb t t0 = false ->
  index (token_str t0) (token_str t ++ w)
  = option_map (Nat.add (List.length (token_str t))) (index (token_str t0) w).
Proof.
  destruct t as [[]|[]|[]], t0 as [[]|[]|[]]; try discriminate; intros _;
    cbn; now destruct (index _ w).
Qed.

Lemma index_same_token (t0 : token) (w : str) :
  index (token_str t0) (token_str t0 ++ w) = Some 0.
Proof.
  destruct (token_str_head t0) as [r E]. rewrite E.
  cbn [app index]. change ("{"%char :: r ++ w) with (("{"%char :: r) ++ w).
  now rewrite startswith_app.
Qed.

(** The first occurrence of a token's string in a template is at the first
    item that is this token. *)
Lemma index_first_token (A : list item) (t0 : token) (w : str) :
  template_ok A ->
  ~ In (Tok t0) A ->
  index (token_str t0) (flatten A ++ token_str t0 ++ w)
  = Some (List.length (flatten A)).
Proof.
  induction A as [|[s|t] A IH]; intros Hok Hin;
    [apply index_same_token| |];
    apply template_ok_cons in Hok as [Hs Hrest];
    cbn [flatten flat_map item_str]; rewrite <- app_assoc.
  - destruct (token_str_head t0) as [r E]. rewrite E.
    rewrite index_plain by assumption. rewrite <- E.
    unfold flatten in IH. rewrite IH; [|assumption|intros H; apply Hin; now right].
    cbn [option_map]. now rewrite length_app.
  - assert (Hne : token_eqb t t0 = false).
    { apply token_eqb_neq. intros ->. apply Hin. now left. }
    rewrite (index_other_token _ _ _ Hne).
    unfold flatten in IH. rewrite IH; [|assumption|intros H; apply Hin; now right].
    cbn [option_map]. now rewrite length_app.
Qed.

Lemma slice_bound_inside (len i : Z) :
  (0 <= i <= len)%Z -> slice_bound len i = Z.to_nat i.
Proof.
  intros H. unfold slice_bound.
  destruct (i <? 0)%Z eqn:E; [apply Z.ltb_lt in E; lia|].
  f_equal. lia.
Qed.

Lemma slice_to_app (u w : str) : slice_to (u ++ w) (zlen u) = u.
Proof.
  unfold slice_to, zlen. rewrite slice_bound_inside.
  - rewrite Nat2Z.id. rewrite firstn_app, firstn_all, Nat.sub_diag. simpl.
    apply app_nil_r.
  - rewrite length_app. lia.
Qed.

Lemma slice_from_app (u w : str) : slice_from (u ++ w) (zlen u) = w.
Proof.
  unfold slice_from, zlen. rewrite slice_bound_inside.
  - rewrite Nat2Z.id. rewrite skipn_app, skipn_all, Nat.sub_diag. reflexivity.
  - rewrite length_app. lia.
Qed.

(** Cutting out a block that occurs once: what is before its opening marker,
    the replacement, what is after its closing marker. *)
Lemma replace_block_cut (b : block) (A M C : list item) (r : str) :
  template_ok (A ++ Tok (Begin b) :: M) ->
  no_marker b A -> no_marker b M ->
  replace_block (flatten (A ++ Tok (Begin b) :: M ++ Tok (End b) :: C))
                (block_name b) (Some r)
  = flatten A ++ r ++ flatten C.
Proof.
  intros Hok [HbA HeA] [HbM HeM].
  assert (HokA : template_ok A) by (apply template_ok_app in Hok; tauto).
  unfold replace_block, find.
  change (block_begin (block_name b)) with (token_str (Begin b)).
  change (block_end (block_name b)) with (token_str (End b)).
  set (s := flatten (A ++ Tok (Begin b) :: M ++ Tok (End b) :: C)).
  assert (E1 : s = flatten A ++ token_str (Begin b)
                   ++ flatten (M ++ Tok (End b) :: C)).
  { unfold s. now rewrite flatten_app. }
  assert (E2 : s = flatten (A ++ Tok (Begin b) :: M) ++ token_str (End b)
                   ++ flatten C).
  { unfold s. rewrite app_comm_cons, app_assoc. now rewrite flatten_app. }
  assert (I1 : index (token_str (Begin b)) s = Some (List.length (flatten A))).
  { rewrite E1. now apply index_first_token. }
  assert (I2 : index (token_str (End b)) s
               = Some (List.length (flatten (A ++ Tok (Begin b) :: M)))).
  { rewrite E2. apply index_first_token; [assumption|].
    intros H. apply in_app_iff in H as [H|[H|H]]; auto; discriminate. }
  rewrite I1, I2. f_equal; [|f_equal].
  - rewrite E1. apply slice_to_app.
  - rewrite E2 at 1. rewrite app_assoc.
    replace (Z.of_nat (List.length (flatten (A ++ Tok (Begin b) :: M)))
             + zlen (token_str (End b)))%Z
      with (zlen (flatten (A ++ Tok (Begin b) :: M) ++ token_str (End b))).
    + apply slice_from_app.
    + unfold zlen. rewrite length_app. lia.
Qed.

Lemma subst_app (t0 : token) (new : str) (a b : list item) :
  subst t0 new (a ++ b) = subst t0 new a ++ subst t0 new b.
Proof. apply map_app. Qed.

Lemma subst_tok_other (t t0 : token) (new : str) (its : list item) :
  token_eqb t t0 = false ->
  subst t0 new (Tok t :: its) = Tok t :: subst t0 new its.
Proof. intros H. unfold subst. cbn [map]. now rewrite H. Qed.

Lemma subst_in_tok (t t0 : token) (new : str) (its : list item) :
  In (Tok t) (subst t0 new its) <-> In (Tok t) its /\ t <> t0.
Proof.
  induction its as [|[s|u] its IH]; simpl.
  - tauto.
  - rewrite IH. split; [intros [H|H]; [discriminate|tauto]|tauto].
  - rewrite IH. destruct (token_eqb u t0) eqn:E.
    + apply token_eqb_eq in E; subst u.
      split; [intros [H|H]; [discriminate|tauto]|].
      intros [[[= ->]|H] Hne]; [contradiction|tauto].
    + apply token_eqb_neq in E.
      split; [intros [[= ->]|H]; tauto|tauto].
Qed.

Lemma subst_template_ok (t0 : token) (new : str) (its : list item) :
  plain new -> template_ok its -> template_ok (subst t0 new its).
Proof.
  intros Hnew. induction its as [|[s|u] its IH]; intros H; simpl; auto;
    apply template_ok_cons in H as [Hs Hrest]; apply template_ok_cons.
  - split; auto.
  - destruct (token_eqb u t0); split; auto.
Qed.

Lemma subst_no_marker (b : block) (t0 : token) (new : str) (its : list item) :
  no_marker b its -> no_marker b (subst t0 new its).
Proof.
  intros [H1 H2]; split; intros H; apply subst_in_tok in H; tauto.
Qed.

Lemma subst_one_block (b : block) (t0 : token) (new : str) (its : list item) :
  t0 <> Begin b -> t0 <> End b ->
  one_block b its -> one_block b (subst t0 new its).
Proof.
  intros Hb He (A & M & C & -> & HA & HM & HC).
  exists (subst t0 new A), (subst t0 new M), (subst t0 new C).
  repeat split; try (apply subst_no_marker; assumption).
  assert (E1 : token_eqb (Begin b) t0 = false)
    by (apply token_eqb_neq; congruence).
  assert (E2 : token_eqb (End b) t0 = false)
    by (apply token_eqb_neq; congruence).
  rewrite subst_app, (subst_tok_other _ _ _ _ E1).
  now rewrite subst_app, (subst_tok_other _ _ _ _ E2).
Qed.

Lemma plain_nil : plain [].
Proof. intros []. Qed.

(** A template without tokens is plain text. *)
Lemma flatten_plain (its : list item) :
  template_ok its -> (forall t, ~ In (Tok t) its) -> plain (flatten its).
Proof.
  induction its as [|[s|u] its IH]; intros Hok Hno; [apply plain_nil| |].
  - apply template_ok_cons in Hok as [Hs Hrest].
    cbn [flatten flat_map item_str]. apply plain_app. split; [assumption|].
    apply IH; [assumption|]. intros t H; apply (Hno t); now right.
  - exfalso. apply (Hno u). now left.
Qed.

Lemma plain_no_index (old' s : str) :
  plain s -> index ("{"%char :: old') s = None.
Proof.
  induction s as [|c s IH]; intros H; [reflexivity|].
  apply plain_cons in H as [Hc Hs].
  cbn [index]. rewrite (startswith_plain_head _ _ _ Hc), (IH Hs). reflexivity.
Qed.

(** The three replacements of [replace_tag] on a template. *)
Lemma replace_tag_flatten (its : list item) (md : metadata_t) (t a al : str) :
  template_ok its ->
  tag_value (title md) = Ok t ->
  tag_value (artist md) = Ok a ->
  tag_value (album md) = Ok al ->
  plain t -> plain a ->
  replace_tag (flatten its) md
  = Ok (flatten (subst (Tag Album) al
                   (subst (Tag Artist) a (subst (Tag Title) t its)))).
Proof.
  intros Hok Ht Ha Hal Pt Pa.
  rewrite (replace_tag_total _ _ _ _ _ Ht Ha Hal). f_equal.
  change $"{{title}}" with (token_str (Tag Title)).
  change $"{{artist}}" with (token_str (Tag Artist)).
  change $"{{album}}" with (token_str (Tag Album)).
  rewrite (replace_flatten _ _ _ Hok).
  rewrite replace_flatten by (apply subst_template_ok; assumption).
  rewrite replace_flatten by (repeat apply subst_template_ok; assumption).
  reflexivity.
Qed.

(** Removing the markers of a block and keeping what is between them. *)
Lemma replace_block_keep (b : block) (its : list item) :
  template_ok its ->
  replace_block (flatten its) (block_name b) None
  = flatten (subst (End b) [] (subst (Begin b) [] its)).
Proof.
  intros Hok. unfold replace_block.
  change (block_begin (block_name b)) with (token_str (Begin b)).
  change (block_end (block_name b)) with (token_str (End b)).
  rewrite (replace_flatten _ _ _ Hok).
  rewrite replace_flatten by (apply subst_template_ok; [apply plain_nil|assumption]).
  reflexivity.
Qed.

Lemma plain_find (s : str) (tok : token) :
  plain s -> find s $"{{" = (-1)%Z /\ find s (token_str tok) = (-1)%Z.
Proof.
  intros H. unfold find. split.
  - change $"{{" with ("{"%char :: ["{"%char]). now rewrite plain_no_index.
  - destruct (token_str_head tok) as [r ->]. now rewrite plain_no_index.
Qed.

Lemma in_outer (A M C : list item) (x y it : item) :
  In it (A ++ C) -> In it (A ++ x :: M ++ y :: C).
Proof.
  rewrite !in_app_iff. simpl. rewrite in_app_iff. simpl. tauto.
Qed.

Lemma template_ok_outer (A M C : list item) (x y : item) :
  template_ok (A ++ x :: M ++ y :: C) -> template_ok (A ++ C).
Proof.
  intros H s Hs. apply (H s). now apply in_outer.
Qed.

Lemma template_ok_front (A M C : list item) (x y : item) :
  template_ok (A ++ x :: M ++ y :: C) -> template_ok (A ++ x :: M).
Proof.
  intros H s Hs. apply (H s).
  rewrite in_app_iff in *. simpl in *. rewrite in_app_iff. tauto.
Qed.

(** C7, as the code has it.  Take a template made of text without an opening
    brace, tags and block markers, in which the "playing" block and the
    "paused" block each occur exactly once (opening marker, then closing
    marker, and no other marker of that block), and metadata whose three
    values are strings, or lists with a first element, without an opening
    brace.  Then for every playback state the status text is built, and it
    contains no opening brace at all: no [{{], and none of the markers or
    tags; and this text is the only line [print_status] can print. *)
Theorem status_text_no_markers :
  forall (its : list item) (md : metadata_t) (playing : option bool)
         (t a al : str),
    template_ok its ->
    one_block Playing its ->
    one_block Paused its ->
    tag_value (title md) = Ok t ->
    tag_value (artist md) = Ok a ->
    tag_value (album md) = Ok al ->
    plain t -> plain a -> plain al ->
    exists out,
      status_text (flatten its) md playing = Ok out
      /\ plain out
      /\ find out $"{{" = (-1)%Z
      /\ (forall tok, find out (token_str tok) = (-1)%Z)
      /\ (forall name conn prev,
            snd (fst (print_status
                        {| bus_name := name; format_string := flatten its;
                           connection := conn; is_playing := playing;
                           metadata := md; prev_content := prev |}))
            = if opt_str_eqb prev out then [] else [out]).
Proof.
  intros its md playing t a al Hok Hpl Hpa Ht Ha Hal Pt Pa Pal.
  set (its1 := subst (Tag Album) al
                 (subst (Tag Artist) a (subst (Tag Title) t its))).
  assert (Hok1 : template_ok its1)
    by (unfold its1; repeat apply subst_template_ok; assumption).
  assert (Htag : forall f, ~ In (Tok (Tag f)) its1).
  { intros f H. unfold its1 in H.
    apply subst_in_tok in H as [H N3].
    apply subst_in_tok in H as [H N2].
    apply subst_in_tok in H as [H N1].
    destruct f; congruence. }
  assert (Hpl1 : one_block Playing its1)
    by (unfold its1; repeat apply subst_one_block; try discriminate; assumption).
  assert (Hpa1 : one_block Paused its1)
    by (unfold its1; repeat apply subst_one_block; try discriminate; assumption).
  assert (Hout : exists out, status_text (flatten its) md playing = Ok out
                             /\ plain out).
  { unfold status_text.
    rewrite (replace_tag_flatten _ _ _ _ _ Hok Ht Ha Hal Pt Pa).
    fold its1. cbn [bind].
    change $"playing" with (block_name Playing).
    change $"paused" with (block_name Paused).
    destruct (truthy playing).
    - rewrite (replace_block_keep _ _ Hok1).
      set (its2 := subst (End Playing) [] (subst (Begin Playing) [] its1)).
      assert (Hok2 : template_ok its2)
        by (unfold its2; repeat apply subst_template_ok;
            assumption || apply plain_nil).
      assert (Hpa2 : one_block Paused its2)
        by (unfold its2; repeat apply subst_one_block; try discriminate;
            assumption).
      destruct Hpa2 as (A & M & C & E & HA & HM & HC).
      rewrite E in *.
      rewrite replace_block_cut;
        [|eapply template_ok_front; eassumption|assumption|assumption].
      eexists; split; [reflexivity|].
      cbn [app]. rewrite <- flatten_app.
      apply flatten_plain; [eapply template_ok_outer; eassumption|].
      intros tok Hin.
      assert (Hin2 : In (Tok tok) its2)
        by (rewrite E; apply in_outer; exact Hin).
      destruct tok as [f|[]|[]].
      + unfold its2 in Hin2.
        apply subst_in_tok in Hin2 as [Hin2 _].
        apply subst_in_tok in Hin2 as [Hin2 _].
        exact (Htag f Hin2).
      + unfold its2 in Hin2.
        apply subst_in_tok in Hin2 as [Hin2 _].
        apply subst_in_tok in Hin2 as [_ N]. congruence.
      + apply in_app_iff in Hin as [Hin|Hin]; [apply HA in Hin|apply HC in Hin];
          assumption.
      + unfold its2 in Hin2.
        apply subst_in_tok in Hin2 as [_ N]. congruence.
      + apply in_app_iff in Hin as [Hin|Hin]; [apply HA in Hin|apply HC in Hin];
          assumption.
    - destruct Hpl1 as (A & M & C & E & HA & HM & HC).
      rewrite E in *.
      rewrite replace_block_cut;
        [|eapply template_ok_front; eassumption|assumption|assumption].
      cbn [app]. rewrite <- flatten_app.
      assert (HokAC : template_ok (A ++ C))
        by (eapply template_ok_outer; eassumption).
      rewrite (replace_block_keep _ _ HokAC).
      eexists; split; [reflexivity|].
      apply flatten_plain;
        [repeat apply subst_template_ok; assumption || apply plain_nil|].
      intros tok Hin.
      apply subst_in_tok in Hin as [Hin N2].
      apply subst_in_tok in Hin as [Hin N1].
      destruct tok as [f|[]|[]]; try congruence.
      + apply (Htag f). apply in_outer. exact Hin.
      + apply in_app_iff in Hin as [Hin|Hin]; [apply HA in Hin|apply HC in Hin];
          assumption.
      + apply in_app_iff in Hin as [Hin|Hin]; [apply HA in Hin|apply HC in Hin];
          assumption. }
  destruct Hout as (out & Hst & Hplain).
  exists out. split; [exact Hst|]. split; [exact Hplain|].
  split; [exact (proj1 (plain_find out (Tag Title) Hplain))|].
  split; [intros tok; exact (proj2 (plain_find out tok Hplain))|].
  intros name conn prev. unfold print_status. cbn [format_string metadata
    is_playing prev_content]. rewrite Hst.
  now destruct (opt_str_eqb prev out).
Qed.

(** Membership in a list given item by item. *)
Ltac not_among H :=
  simpl in H; repeat (destruct H as [H|H]; [discriminate|]); contradiction.

Lemma default_items_flatten : flatten default_items = default_format.
Proof. reflexivity. Qed.

Lemma default_items_ok : template_ok default_items.
Proof.
  intros s H. simpl in H.
  repeat (destruct H as [H|H]; [try discriminate; injection H as <-|]);
    try contradiction;
    intros Hin; not_among Hin.
Qed.

Lemma default_items_playing : one_block Playing default_items.
Proof.
  exists [], [Text $"Playing: "],
    [Tok (Begin Paused); Text $"Paused: "; Tok (End Paused);
     Tok (Tag Artist); Text $" - "; Tok (Tag Title)].
  split; [reflexivity|].
  repeat split; intros H; not_among H.
Qed.

Lemma default_items_paused : one_block Paused default_items.
Proof.
  exists [Tok (Begin Playing); Text $"Playing: "; Tok (End Playing)],
    [Text $"Paused: "], [Tok (Tag Artist); Text $" - "; Tok (Tag Title)].
  split; [reflexivity|].
  repeat split; intros H; not_among H.
Qed.

Lemma plain_song : plain $"Song" /\ plain $"Band" /\ plain $"X".
Proof.
  repeat split; intros H; not_among H.
Qed.

Lemma status_text_no_markers_witness :
  template_ok default_items
  /\ one_block Playing default_items
  /\ one_block Paused default_items
  /\ tag_value (title song_metadata) = Ok $"Song"
  /\ tag_value (artist song_metadata) = Ok $"Band"
  /\ tag_value (album song_metadata) = Ok $"X"
  /\ (plain $"Song" /\ plain $"Band" /\ plain $"X")
  /\ exists out,
       status_text (flatten default_items) song_metadata (Some false) = Ok out
       /\ plain out
       /\ find out $"{{" = (-1)%Z.
Proof.
  split; [exact default_items_ok|].
  split; [exact default_items_playing|].
  split; [exact default_items_paused|].
  repeat (split; [reflexivity|]).
  split; [exact plain_song|].
  destruct (status_text_no_markers default_items song_metadata (Some false)
              $"Song" $"Band" $"X"
              default_items_ok default_items_playing default_items_paused
              eq_refl eq_refl eq_refl
              (proj1 plain_song) (proj1 (proj2 plain_song))
              (proj2 (proj2 plain_song)))
    as (out & Hst & Hplain & Hfind & _).
  exists out. repeat split; assumption.
Defined.

(** C7 as stated fails.  With the "paused" block twice in the template and a
    playing player, only the first occurrence is cut out and the markers of
    the second are printed.  With no "playing" block in the template and a
    player that is not playing, both [find] return [-1], the slices lose
    the last character and repeat the end of the text, and a broken marker
    is printed.  And a brace pair that comes with the metadata is printed as
    it is. *)
Lemma status_text_stray_markers :
  (status_text two_paused_blocks song_metadata (Some true)
   = Ok $"{{paused}}b{{/paused}}"
   /\ find $"{{paused}}b{{/paused}}" $"{{paused}}" = 0%Z
   /\ find $"{{paused}}b{{/paused}}" $"{{" = 0%Z)
  /\ (status_text $"{{paused}}x{{/paused}}" song_metadata (Some false)
      = Ok $"x{{/paused}"
      /\ find $"x{{/paused}" $"{{" = 1%Z)
  /\ (status_text default_format
        {| title := VStr $"{{x}}"; artist := VList [$"Band"]; album := VStr $"X" |}
        (Some true)
      = Ok $"Playing: Band - {{x}}").
Proof. repeat split. Qed.

(** * Further properties of the code *)

(** ** replace_tag *)

Lemma subst_tags_fill (val : field -> str) (its : list item) :
  subst (Tag Album) (val Album)
    (subst (Tag Artist) (val Artist) (subst (Tag Title) (val Title) its))
  = fill val its.
Proof.
  unfold subst, fill. rewrite !map_map. apply map_ext.
  intros [s|[[]|[]|[]]]; reflexivity.
Qed.

(** X1. [replace_tag] on a template of text, tags and block markers: when
    the three values can be shown (none is an empty list) and those of
    ['title'] and ['artist'] have no opening brace, every occurrence of every
    tag is replaced by the value of its key, a list by its first element, and
    the text and the block markers stay as they are. *)
Theorem replace_tag_fills_template :
  forall (its : list item) (md : metadata_t) (val : field -> str),
    template_ok its ->
    (forall f, tag_value (md_get md f) = Ok (val f)) ->
    plain (val Title) ->
    plain (val Artist) ->
    replace_tag (flatten its) md = Ok (flatten (fill val its)).
Proof.
  intros its md val Hok Hval Pt Pa.
  rewrite (replace_tag_flatten its md (val Title) (val Artist) (val Album) Hok
             (Hval Title) (Hval Artist) (Hval Album) Pt Pa).
  now rewrite subst_tags_fill.
Qed.

Lemma replace_tag_fills_template_witness :
  template_ok default_items
  /\ (forall f, tag_value (md_get song_metadata f) = Ok (song_val f))
  /\ plain (song_val Title)
  /\ plain (song_val Artist)
  /\ replace_tag default_format song_metadata
     = Ok $"{{playing}}Playing: {{/playing}}{{paused}}Paused: {{/paused}}Band - Song".
Proof.
  assert (Hval : forall f, tag_value (md_get song_metadata f) = Ok (song_val f))
    by (intros []; reflexivity).
  split; [exact default_items_ok|]. split; [exact Hval|].
  split; [exact (proj1 plain_song)|]. split; [exact (proj1 (proj2 plain_song))|].
  exact (replace_tag_fills_template default_items song_metadata song_val
           default_items_ok Hval (proj1 plain_song) (proj1 (proj2 plain_song))).
Defined.

Lemma tag_value_cases (v : value) :
  (v = VList [] /\ tag_value v = Raise IndexError)
  \/ (v <> VList [] /\ exists s, tag_value v = Ok s).
Proof.
  destruct v as [s|[|x l]].
  - right; split; [discriminate|now exists s].
  - left; split; reflexivity.
  - right; split; [discriminate|now exists x].
Qed.

(** X2. [replace_tag] fails exactly when one of the three values is an empty
    list, and then with [IndexError], whatever the template; with any other
    values it returns a string. *)
Theorem replace_tag_raises_iff :
  forall (original : str) (md : metadata_t),
    (replace_tag original md = Raise IndexError
     <-> exists f, md_get md f = VList [])
    /\ ((exists r, replace_tag original md = Ok r)
        <-> forall f, md_get md f <> VList []).
Proof.
  intros original md. unfold replace_tag, md_items. cbn [map fields replace_tag_loop].
  cbn [md_get].
  destruct (tag_value_cases (title md)) as [[E1 R1]|[N1 [s1 R1]]];
    rewrite R1; cbn [bind].
  { split; split.
    - intros _; now exists Title.
    - reflexivity.
    - intros [r Hr]; discriminate Hr.
    - intros H; exfalso; apply (H Title); exact E1. }
  destruct (tag_value_cases (artist md)) as [[E2 R2]|[N2 [s2 R2]]];
    rewrite R2; cbn [bind].
  { split; split.
    - intros _; now exists Artist.
    - reflexivity.
    - intros [r Hr]; discriminate Hr.
    - intros H; exfalso; apply (H Artist); exact E2. }
  destruct (tag_value_cases (album md)) as [[E3 R3]|[N3 [s3 R3]]];
    rewrite R3; cbn [bind].
  { split; split.
    - intros _; now exists Album.
    - reflexivity.
    - intros [r Hr]; discriminate Hr.
    - intros H; exfalso; apply (H Album); exact E3. }
  split; split.
  - intros H; discriminate H.
  - intros [[] H]; simpl in H; contradiction.
  - intros _ []; assumption.
  - intros _; eexists; reflexivity.
Qed.

(** ** replace_block *)

(** X3. [replace_block] with a replacement string cuts from the first opening
    marker of the block to its first closing marker, when that one comes
    later: the result is what stands before the opening marker, the
    replacement, and everything after the closing marker, further
    occurrences of the block included. *)
Theorem replace_block_cuts_first_block :
  forall (b : block) (A M C : list item) (r : str),
    template_ok (A ++ Tok (Begin b) :: M) ->
    no_marker b A ->
    no_marker b M ->
    let s := flatten (A ++ Tok (Begin b) :: M ++ Tok (End b) :: C) in
    find s (block_begin (block_name b)) = zlen (flatten A)
    /\ find s (block_end (block_name b))
       = zlen (flatten (A ++ Tok (Begin b) :: M))
    /\ replace_block s (block_name b) (Some r) = flatten A ++ r ++ flatten C.
Proof.
  intros b A M C r Hok HA HM s.
  assert (HokA : template_ok A) by (apply template_ok_app in Hok; tauto).
  destruct HA as [HbA HeA]. destruct HM as [HbM HeM].
  split; [|split].
  - unfold find, s. rewrite flatten_app.
    change (block_begin (block_name b)) with (token_str (Begin b)).
    cbn [flatten flat_map item_str]. fold (flatten (M ++ Tok (End b) :: C)).
    now rewrite index_first_token.
  - unfold find, s. rewrite app_comm_cons, app_assoc, flatten_app.
    change (block_end (block_name b)) with (token_str (End b)).
    cbn [flatten flat_map item_str]. fold (flatten C).
    rewrite index_first_token; [reflexivity|assumption|].
    intros H. apply in_app_iff in H as [H|[H|H]]; auto; discriminate.
  - apply replace_block_cut; [assumption|now split|now split].
Qed.

Lemma replace_block_cuts_first_block_witness :
  template_ok ([] ++ Tok (Begin Paused) :: [Text $"a"])
  /\ no_marker Paused []
  /\ no_marker Paused [Text $"a"]
  /\ replace_block two_paused_blocks $"paused" (Some $"-")
     = $"-{{paused}}b{{/paused}}".
Proof.
  assert (H1 : template_ok ([] ++ Tok (Begin Paused) :: [Text $"a"])).
  { intros s H. simpl in H. destruct H as [H|[H|[]]]; [discriminate|].
    injection H as <-. intros Hin; not_among Hin. }
  assert (H2 : no_marker Paused []) by (split; intros []).
  assert (H3 : no_marker Paused [Text $"a"])
    by (split; intros H; not_among H).
  split; [exact H1|]. split; [exact H2|]. split; [exact H3|].
  exact (proj2 (proj2 (replace_block_cuts_first_block Paused [] [Text $"a"]
                         [Tok (Begin Paused); Text $"b"; Tok (End Paused)]
                         $"-" H1 H2 H3))).
Defined.

(** X4. The block's closing marker before its opening marker: [start_pos]
    is then behind [end_pos], and the result has the text up to the opening
    marker, the replacement, and again everything after the closing marker,
    so that what stands between the two markers comes twice and both markers
    stay. *)
Theorem replace_block_markers_swapped :
  forall (b : block) (A M C : list item) (r : str),
    template_ok (A ++ Tok (End b) :: M) ->
    no_marker b A ->
    no_marker b M ->
    replace_block (flatten (A ++ Tok (End b) :: M ++ Tok (Begin b) :: C))
                  (block_name b) (Some r)
    = flatten (A ++ Tok (End b) :: M) ++ r
      ++ flatten (M ++ Tok (Begin b) :: C).
Proof.
  intros b A M C r Hok [HbA HeA] [HbM HeM].
  assert (HokA : template_ok A) by (apply template_ok_app in Hok; tauto).
  unfold replace_block, find.
  change (block_begin (block_name b)) with (token_str (Begin b)).
  change (block_end (block_name b)) with (token_str (End b)).
  set (s := flatten (A ++ Tok (End b) :: M ++ Tok (Begin b) :: C)).
  assert (E1 : s = flatten A ++ token_str (End b)
                   ++ flatten (M ++ Tok (Begin b) :: C)).
  { unfold s. now rewrite flatten_app. }
  assert (E2 : s = flatten (A ++ Tok (End b) :: M) ++ token_str (Begin b)
                   ++ flatten C).
  { unfold s. rewrite app_comm_cons, app_assoc. now rewrite flatten_app. }
  assert (I1 : index (token_str (End b)) s = Some (List.length (flatten A))).
  { rewrite E1. now apply index_first_token. }
  assert (I2 : index (token_str (Begin b)) s
               = Some (List.length (flatten (A ++ Tok (End b) :: M)))).
  { rewrite E2. apply index_first_token; [assumption|].
    intros H. apply in_app_iff in H as [H|[H|H]]; auto; discriminate. }
  rewrite I1, I2. f_equal; [|f_equal].
  - rewrite E2. apply slice_to_app.
  - rewrite E1 at 1. rewrite app_assoc.
    replace (Z.of_nat (List.length (flatten A)) + zlen (token_str (End b)))%Z
      with (zlen (flatten A ++ token_str (End b))).
    + apply slice_from_app.
    + unfold zlen. rewrite length_app. lia.
Qed.

Lemma replace_block_markers_swapped_witness :
  template_ok ([] ++ Tok (End Playing) :: [Text $"x"])
  /\ no_marker Playing []
  /\ no_marker Playing [Text $"x"]
  /\ replace_block $"{{/playing}}x{{playing}}y" $"playing" (Some $"")
     = $"{{/playing}}xx{{playing}}y".
Proof.
  assert (H1 : template_ok ([] ++ Tok (End Playing) :: [Text $"x"])).
  { intros s H. simpl in H. destruct H as [H|[H|[]]]; [discriminate|].
    injection H as <-. intros Hin; not_among Hin. }
  assert (H2 : no_marker Playing []) by (split; intros []).
  assert (H3 : no_marker Playing [Text $"x"])
    by (split; intros H; not_among H).
  split; [exact H1|]. split; [exact H2|]. split; [exact H3|].
  exact (replace_block_markers_swapped Playing [] [Text $"x"] [Text $"y"]
           $"" H1 H2 H3).
Defined.

Lemma flatten_drop_markers (b : block) (its : list item) :
  flatten (subst (End b) [] (subst (Begin b) [] its))
  = flatten (drop_markers b its).
Proof.
  induction its as [|[s|t] its IH]; [reflexivity| |].
  - cbn [subst map drop_markers filter is_marker negb flatten flat_map item_str].
    f_equal. exact IH.
  - unfold flatten, subst, drop_markers in *.
    destruct t as [[]|[]|[]], b; cbn in *; rewrite IH; reflexivity.
Qed.

(** X5. [replace_block] without a replacement string deletes every opening
    and every closing marker of the block, however many there are and in
    whatever order, and keeps the rest of the template. *)
Theorem replace_block_drops_markers :
  forall (b : block) (its : list item),
    template_ok its ->
    replace_block (flatten its) (block_name b) None
    = flatten (drop_markers b its)
    /\ no_marker b (drop_markers b its).
Proof.
  intros b its Hok. split.
  - rewrite (replace_block_keep _ _ Hok). apply flatten_drop_markers.
  - split; intros H; apply filter_In in H as [_ H]; cbn [is_marker] in H;
      rewrite token_eqb_refl, ?orb_true_r in H; discriminate.
Qed.

Lemma replace_block_drops_markers_witness :
  template_ok default_items
  /\ replace_block default_format $"playing" None
     = $"Playing: {{paused}}Paused: {{/paused}}{{artist}} - {{title}}".
Proof.
  split; [exact default_items_ok|].
  exact (proj1 (replace_block_drops_markers Playing default_items
                  default_items_ok)).
Defined.

Lemma index_none_cons (old : str) (c : ascii) (s : str) :
  index old (c :: s) = None ->
  startswith old (c :: s) = false /\ index old s = None.
Proof.
  cbn [index]. destruct (startswith old (c :: s)); [discriminate|].
  destruct (index old s); [discriminate|]. now split.
Qed.

Lemma replace_absent (s old new : str) :
  index old s = None -> replace s old new = s.
Proof.
  destruct old as [|x old']; [destruct s; discriminate|].
  unfold replace.
  induction s as [|c s IH]; intros H; [reflexivity|].
  apply index_none_cons in H as [Hs Hi].
  cbn [replace_scan]. rewrite Hs. now rewrite IH.
Qed.

Lemma slice_to_minus_one (s : str) : slice_to s (-1) = removelast s.
Proof.
  unfold slice_to, slice_bound, zlen. rewrite removelast_firstn_len.
  f_equal. cbn [Z.ltb Z.compare]. lia.
Qed.

Lemma slice_from_nat (s : str) (k : nat) :
  slice_from s (Z.of_nat k) = skipn k s.
Proof.
  unfold slice_from, slice_bound, zlen.
  destruct (Z.of_nat k <? 0)%Z eqn:E; [apply Z.ltb_lt in E; lia|].
  destruct (Nat.le_gt_cases k (List.length s)) as [H|H].
  - f_equal. lia.
  - replace (Z.to_nat _) with (List.length s) by lia.
    rewrite skipn_all. symmetry. apply skipn_all2. lia.
Qed.

Lemma block_end_length (name : str) :
  zlen (block_end name) = Z.of_nat (List.length name + 5).
Proof.
  unfold zlen, block_end. rewrite !length_app. simpl. f_equal. lia.
Qed.

Lemma replace_block_keep_absent_eq (s name : str) :
  find s (block_begin name) = (-1)%Z ->
  find s (block_end name) = (-1)%Z ->
  replace_block s name None = s.
Proof.
  intros H1 H2. unfold find in *.
  destruct (index (block_begin name) s) eqn:E1; [lia|].
  destruct (index (block_end name) s) eqn:E2; [lia|].
  unfold replace_block. rewrite (replace_absent _ _ _ E1).
  now rewrite (replace_absent _ _ _ E2).
Qed.

Lemma replace_block_cut_absent_eq (s name r : str) :
  find s (block_begin name) = (-1)%Z ->
  find s (block_end name) = (-1)%Z ->
  replace_block s name (Some r)
  = removelast s ++ r ++ skipn (List.length name + 4) s.
Proof.
  intros H1 H2.
  unfold replace_block. rewrite H1, H2, slice_to_minus_one.
  rewrite block_end_length.
  replace (-1 + Z.of_nat (List.length name + 5))%Z
    with (Z.of_nat (List.length name + 4)) by lia.
  now rewrite slice_from_nat.
Qed.

(** X6. [replace_block] without a replacement string on a string in which
    neither marker of the block occurs returns the string unchanged. *)
Theorem replace_block_keep_absent :
  forall (s name : str),
    find s (block_begin name) = (-1)%Z ->
    find s (block_end name) = (-1)%Z ->
    replace_block s name None = s.
Proof.
  intros s name H1 H2. now apply replace_block_keep_absent_eq.
Qed.

Lemma replace_block_keep_absent_witness :
  find $"Band - Song" (block_begin $"paused") = (-1)%Z
  /\ find $"Band - Song" (block_end $"paused") = (-1)%Z
  /\ replace_block $"Band - Song" $"paused" None = $"Band - Song".
Proof.
  split; [reflexivity|]. split; [reflexivity|].
  exact (replace_block_keep_absent $"Band - Song" $"paused" eq_refl eq_refl).
Defined.

(** X7. [replace_block] with a replacement string on a string in which
    neither marker of the block occurs: both [find] return [-1], which is
    not tested, so the last character of the string is dropped, the
    replacement appended, and then the string again from the index
    [len(block_end) - 1] on.  A string no longer than that only loses its last
    character. *)
Theorem replace_block_cut_absent :
  forall (s name r : str),
    find s (block_begin name) = (-1)%Z ->
    find s (block_end name) = (-1)%Z ->
    replace_block s name (Some r)
    = removelast s ++ r ++ skipn (List.length name + 4) s
    /\ (List.length s <= List.length name + 4 ->
        replace_block s name (Some r) = removelast s ++ r).
Proof.
  intros s name r H1 H2.
  pose proof (replace_block_cut_absent_eq s name r H1 H2) as E.
  split; [exact E|].
  intros Hlen. rewrite E, skipn_all2 by exact Hlen. now rewrite app_nil_r.
Qed.

Lemma replace_block_cut_absent_witness :
  find $"Band - Song" (block_begin $"playing") = (-1)%Z
  /\ find $"Band - Song" (block_end $"playing") = (-1)%Z
  /\ replace_block $"Band - Song" $"playing" (Some $"") = $"Band - Son".
Proof.
  split; [reflexivity|]. split; [reflexivity|].
  exact (proj1 (replace_block_cut_absent $"Band - Song" $"playing" $""
                  eq_refl eq_refl)).
Defined.

(** ** print_status on particular templates *)

Lemma plain_firstn (n : nat) (s : str) : plain s -> plain (firstn n s).
Proof.
  intros H. rewrite <- (firstn_skipn n s) in H. apply plain_app in H. tauto.
Qed.

Lemma plain_skipn (n : nat) (s : str) : plain s -> plain (skipn n s).
Proof.
  intros H. rewrite <- (firstn_skipn n s) in H. apply plain_app in H. tauto.
Qed.

Lemma plain_removelast (s : str) : plain s -> plain (removelast s).
Proof. rewrite removelast_firstn_len. apply plain_firstn. Qed.

Lemma plain_find_marker (s name : str) :
  plain s ->
  find s (block_begin name) = (-1)%Z /\ find s (block_end name) = (-1)%Z.
Proof.
  intros H. unfold find, block_begin, block_end. cbn [list_ascii_of_string app].
  now rewrite !plain_no_index.
Qed.

Lemma fill_template_ok (val : field -> str) (its : list item) :
  (forall f, plain (val f)) -> template_ok its -> template_ok (fill val its).
Proof.
  intros Hval Hok s Hin. unfold fill in Hin. apply in_map_iff in Hin.
  destruct Hin as ([u|[f|b|b]] & E & Hin); try discriminate.
  - injection E as <-. now apply Hok.
  - injection E as <-. apply Hval.
Qed.

Lemma fill_no_tok (val : field -> str) (its : list item) :
  (forall t, In (Tok t) its -> exists f, t = Tag f) ->
  forall t, ~ In (Tok t) (fill val its).
Proof.
  intros Honly t Hin. unfold fill in Hin. apply in_map_iff in Hin.
  destruct Hin as ([u|[f|b|b]] & E & Hin); try discriminate;
    destruct (Honly _ Hin) as [g Hg]; discriminate.
Qed.

(** X8. A template of text and tags without any block marker: once the tags
    are replaced, [print_status] still cuts out the block that does not
    apply, and the cut of an absent block drops the last character of the
    status text and repeats the text from index 10 on (playing) or from
    index 11 on (otherwise).  A status text of at most ten characters only
    loses its last character. *)
Theorem status_text_without_blocks :
  forall (its : list item) (md : metadata_t) (val : field -> str)
         (playing : option bool),
    template_ok its ->
    (forall t, In (Tok t) its -> exists f, t = Tag f) ->
    (forall f, tag_value (md_get md f) = Ok (val f)) ->
    (forall f, plain (val f)) ->
    let x := flatten (fill val its) in
    status_text (flatten its) md playing
    = Ok (removelast x ++ skipn (if truthy playing then 10 else 11) x)
    /\ (List.length x <= 10 ->
        status_text (flatten its) md playing = Ok (removelast x)).
Proof.
  intros its md val playing Hok Honly Hval Hplain x.
  assert (Hx : plain x).
  { apply flatten_plain; [now apply fill_template_ok|now apply fill_no_tok]. }
  assert (Htag : replace_tag (flatten its) md = Ok x).
  { rewrite (replace_tag_flatten its md (val Title) (val Artist) (val Album)
               Hok (Hval Title) (Hval Artist) (Hval Album)
               (Hplain Title) (Hplain Artist)).
    unfold x. now rewrite subst_tags_fill. }
  assert (E : status_text (flatten its) md playing
              = Ok (removelast x ++ skipn (if truthy playing then 10 else 11) x)).
  { unfold status_text. rewrite Htag. cbn [bind].
    destruct (truthy playing).
    - destruct (plain_find_marker x $"playing" Hx) as [F1 F2].
      destruct (plain_find_marker x $"paused" Hx) as [G1 G2].
      rewrite (replace_block_keep_absent_eq _ _ F1 F2). f_equal.
      exact (replace_block_cut_absent_eq x $"paused" [] G1 G2).
    - destruct (plain_find_marker x $"playing" Hx) as [F1 F2].
      assert (Hy : plain (removelast x ++ skipn 11 x))
        by (apply plain_app; split;
            [now apply plain_removelast|now apply plain_skipn]).
      destruct (plain_find_marker _ $"paused" Hy) as [G1 G2].
      f_equal.
      transitivity (replace_block (removelast x ++ skipn 11 x) $"paused" None).
      + f_equal. exact (replace_block_cut_absent_eq x $"playing" [] F1 F2).
      + exact (replace_block_keep_absent_eq _ _ G1 G2). }
  split; [exact E|].
  intros Hlen. rewrite E. f_equal.
  rewrite skipn_all2; [apply app_nil_r|destruct (truthy playing); lia].
Qed.

Lemma plain_song_val (f : field) : plain (song_val f).
Proof. destruct f; intros H; not_among H. Qed.

Lemma plain_items_ok : template_ok plain_items.
Proof.
  intros s H. simpl in H.
  repeat (destruct H as [H|H]; [try discriminate; injection H as <-|]);
    try contradiction.
  intros Hin; not_among Hin.
Qed.

Lemma plain_items_only_tags (t : token) :
  In (Tok t) plain_items -> exists f, t = Tag f.
Proof.
  intros H. simpl in H.
  destruct H as [H|[H|[H|[]]]]; try discriminate; injection H as <-; eauto.
Qed.

Lemma status_text_without_blocks_witness :
  template_ok plain_items
  /\ (forall t, In (Tok t) plain_items -> exists f, t = Tag f)
  /\ (forall f, tag_value (md_get song_metadata f) = Ok (song_val f))
  /\ (forall f, plain (song_val f))
  /\ status_text $"{{artist}} - {{title}}" song_metadata (Some false)
     = Ok $"Band - Son".
Proof.
  assert (Hval : forall f, tag_value (md_get song_metadata f) = Ok (song_val f))
    by (intros []; reflexivity).
  split; [exact plain_items_ok|]. split; [exact plain_items_only_tags|].
  split; [exact Hval|]. split; [exact plain_song_val|].
  exact (proj1 (status_text_without_blocks plain_items song_metadata song_val
                  (Some false) plain_items_ok plain_items_only_tags Hval
                  plain_song_val)).
Defined.

(** A template written out item by item, its texts plain by assumption. *)
Ltac solve_template_ok :=
  repeat (apply template_ok_cons; split; [assumption || exact I|]);
  intros ? [].

(** X9. The default format of [main].  For metadata whose title and artist
    can be shown and have no opening brace, and whose album is not an empty
    list, the status text is ["Playing: "] for a playing player, and
    ["Paused: "] for a paused one and for one whose state is unknown alike,
    followed by the artist (the first one of a list), [" - "] and the
    title. *)
Theorem default_format_status_text :
  forall (md : metadata_t) (t a al : str) (playing : option bool),
    tag_value (title md) = Ok t ->
    tag_value (artist md) = Ok a ->
    tag_value (album md) = Ok al ->
    plain t ->
    plain a ->
    status_text default_format md playing
    = Ok (state_word playing ++ a ++ $" - " ++ t).
Proof.
  intros md t a al playing Ht Ha Hal Pt Pa.
  assert (Pc : plain $"Playing: " /\ plain $"Paused: " /\ plain $" - ").
  { repeat split; intros H; not_among H. }
  destruct Pc as (Pc1 & Pc2 & Pc3).
  assert (Hnil : plain []) by apply plain_nil.
  unfold status_text, state_word.
  rewrite <- default_items_flatten.
  rewrite (replace_tag_flatten _ _ _ _ _ default_items_ok Ht Ha Hal Pt Pa).
  cbn [bind].
  cbn [subst map token_eqb field_eqb default_items].
  change $"playing" with (block_name Playing).
  change $"paused" with (block_name Paused).
  destruct (truthy playing).
  - rewrite replace_block_keep by solve_template_ok.
    cbn [subst map token_eqb field_eqb].
    change [Text []; Text $"Playing: "; Text []; Tok (Begin Paused);
            Text $"Paused: "; Tok (End Paused); Text a; Text $" - "; Text t]
      with ([Text []; Text $"Playing: "; Text []] ++ Tok (Begin Paused)
            :: [Text $"Paused: "] ++ Tok (End Paused)
            :: [Text a; Text $" - "; Text t]).
    rewrite replace_block_cut;
      [|solve_template_ok|split; intros H; not_among H..].
    f_equal. cbn [flatten flat_map item_str]. simpl.
    now rewrite !app_nil_r.
  - change [Tok (Begin Playing); Text $"Playing: "; Tok (End Playing);
            Tok (Begin Paused); Text $"Paused: "; Tok (End Paused);
            Text a; Text $" - "; Text t]
      with ([] ++ Tok (Begin Playing) :: [Text $"Playing: "]
            ++ Tok (End Playing)
            :: [Tok (Begin Paused); Text $"Paused: "; Tok (End Paused);
                Text a; Text $" - "; Text t]).
    rewrite replace_block_cut;
      [|solve_template_ok|split; intros H; not_among H..].
    cbn [app].
    change (flatten [] ++ flatten ?x) with (flatten x).
    rewrite replace_block_keep by solve_template_ok.
    f_equal. cbn [subst map token_eqb field_eqb flatten flat_map item_str].
    simpl. now rewrite !app_nil_r.
Qed.

Lemma default_format_status_text_witness :
  tag_value (title song_metadata) = Ok $"Song"
  /\ tag_value (artist song_metadata) = Ok $"Band"
  /\ tag_value (album song_metadata) = Ok $"X"
  /\ plain $"Song"
  /\ plain $"Band"
  /\ status_text default_format song_metadata (Some false)
     = Ok $"Paused: Band - Song".
Proof.
  repeat (split; [reflexivity|]).
  split; [exact (proj1 plain_song)|]. split; [exact (proj1 (proj2 plain_song))|].
  exact (default_format_status_text song_metadata $"Song" $"Band" $"X"
           (Some false) eq_refl eq_refl eq_refl
           (proj1 plain_song) (proj1 (proj2 plain_song))).
Defined.

(** ** The registry dictionary *)

Lemma dict_get_set_eq {V} (d : dict V) (k : str) (v : V) :
  dict_get (dict_set d k v) k = Some v.
Proof.
  induction d as [|[k0 v0] d IH]; cbn [dict_set dict_get].
  - now rewrite str_eqb_refl.
  - destruct (str_eqb k0 k) eqn:E; cbn [dict_get]; rewrite E; auto.
Qed.

Lemma dict_get_set_neq {V} (d : dict V) (k k' : str) (v : V) :
  k' <> k -> dict_get (dict_set d k v) k' = dict_get d k'.
Proof.
  intros Hne. induction d as [|[k0 v0] d IH]; cbn [dict_set dict_get].
  - assert (E : str_eqb k k' = false) by (apply str_eqb_neq; congruence).
    now rewrite E.
  - destruct (str_eqb k0 k) eqn:E; cbn [dict_get].
    + apply str_eqb_eq in E; subst k0.
      assert (E' : str_eqb k k' = false) by (apply str_eqb_neq; congruence).
      now rewrite E'.
    + destruct (str_eqb k0 k'); auto.
Qed.

Lemma dict_set_absent {V} (d : dict V) (k : str) (v : V) :
  dict_get d k = None -> dict_set d k v = d ++ [(k, v)].
Proof.
  induction d as [|[k0 v0] d IH]; cbn [dict_set dict_get app]; [reflexivity|].
  destruct (str_eqb k0 k); [discriminate|].
  intros H. now rewrite IH.
Qed.

Lemma dict_del_set_absent {V} (d : dict V) (k : str) (v : V) :
  dict_get d k = None -> dict_del (dict_set d k v) k = d.
Proof.
  induction d as [|[k0 v0] d IH]; cbn [dict_set dict_get dict_del].
  - now rewrite str_eqb_refl.
  - destruct (str_eqb k0 k) eqn:E; [discriminate|].
    intros H. cbn [dict_del]. rewrite E. now rewrite IH.
Qed.

Lemma dict_set_twice {V} (d : dict V) (k : str) (v w : V) :
  dict_set (dict_set d k v) k w = dict_set d k w.
Proof.
  induction d as [|[k0 v0] d IH]; cbn [dict_set].
  - now rewrite str_eqb_refl.
  - destruct (str_eqb k0 k) eqn:E; cbn [dict_set]; rewrite E; [reflexivity|].
    now rewrite IH.
Qed.

Lemma dict_get_app {V} (d e : dict V) (k : str) :
  dict_get (d ++ e) k
  = match dict_get d k with Some v => Some v | None => dict_get e k end.
Proof.
  induction d as [|[k0 v0] d IH]; cbn [app dict_get]; [reflexivity|].
  destruct (str_eqb k0 k); auto.
Qed.

Lemma dict_del_middle {V} (pre post : dict V) (k : str) (v : V) :
  dict_get pre k = None ->
  dict_del (pre ++ (k, v) :: post) k = pre ++ post.
Proof.
  induction pre as [|[k0 v0] pre IH]; cbn [app dict_get dict_del].
  - now rewrite str_eqb_refl.
  - destruct (str_eqb k0 k); [discriminate|]. intros H. now rewrite IH.
Qed.

(** ** add_player, del_player, change_owner *)

(** X10. [add_player] files the new player under [owner]: looking the owner
    up gives the object just made, which is the one [__init__] returns for
    the bus's answers; every other owner has the entry it had, and the
    objects made before are untouched.  The primary player and its signal
    match stay as they are, also when the new player takes the place of the
    primary one in the registry. *)
Theorem add_player_registers :
  forall (m : MPRISManager) (name owner : str) (bus : remote_t),
    let m' := add_player m name owner bus in
    let i := List.length (store m) in
    dict_get (players m') owner = Some i
    /\ nth_error (store m') i = Some (fst (new_player name (mgr_format m) bus))
    /\ (forall o, o <> owner -> dict_get (players m') o = dict_get (players m) o)
    /\ (forall j, j < i -> nth_error (store m') j = nth_error (store m) j)
    /\ primary_player m' = primary_player m
    /\ receivers m' = receivers m.
Proof.
  intros m name owner bus m' i. unfold m', add_player.
  destruct (new_player name (mgr_format m) bus) as [p out].
  cbn [players store primary_player receivers with_players with_store print fst].
  repeat split.
  - apply dict_get_set_eq.
  - rewrite nth_error_app2 by (unfold i; lia).
    unfold i. now rewrite Nat.sub_diag.
  - intros o Ho. now apply dict_get_set_neq.
  - intros j Hj. now rewrite nth_error_app1.
Qed.

(** X11. [add_player] followed by [del_player] for the same owner, when the
    owner had no entry: the deletion succeeds and the registry is the one
    from before the addition, in the same order. *)
Theorem add_then_del_player :
  forall (m : MPRISManager) (name owner : str) (bus : remote_t),
    dict_get (players m) owner = None ->
    let m1 := add_player m name owner bus in
    snd (del_player m1 owner) = Ok tt
    /\ players (fst (del_player m1 owner)) = players m
    /\ store (fst (del_player m1 owner)) = store m1
    /\ primary_player (fst (del_player m1 owner)) = primary_player m.
Proof.
  intros m name owner bus Habs m1.
  assert (Hp : players m1 = dict_set (players m) owner (List.length (store m))).
  { unfold m1, add_player. now destruct (new_player name (mgr_format m) bus). }
  assert (Hprim : primary_player m1 = primary_player m).
  { unfold m1, add_player. now destruct (new_player name (mgr_format m) bus). }
  unfold del_player, dict_mem. rewrite Hp, dict_get_set_eq.
  cbn [fst snd players store primary_player with_players].
  repeat split; auto.
  now apply dict_del_set_absent.
Qed.

Lemma add_then_del_player_witness :
  dict_get (players two_players) $":1.42" = None
  /\ players (fst (del_player (add_player two_players vlc $":1.42" no_bus)
                     $":1.42"))
     = players two_players.
Proof.
  split; [reflexivity|].
  exact (proj1 (proj2 (add_then_del_player two_players vlc $":1.42" no_bus
                         eq_refl))).
Defined.

Lemma change_owner_moves_eq (m : MPRISManager) (old_owner new_owner : str)
  (pre post : dict nat) (i : nat) :
  players m = pre ++ (old_owner, i) :: post ->
  dict_get pre old_owner = None ->
  dict_get (pre ++ post) new_owner = None ->
  change_owner m old_owner new_owner
  = (with_players m (pre ++ post ++ [(new_owner, i)]), Ok tt).
Proof.
  intros Hp Hpre Hnew.
  unfold change_owner. rewrite Hp.
  rewrite dict_get_app, Hpre. cbn [dict_get]. rewrite str_eqb_refl.
  rewrite (dict_del_middle _ _ _ _ Hpre).
  rewrite (dict_set_absent _ _ _ Hnew). now rewrite <- app_assoc.
Qed.

(** X12. [change_owner] with an owner that has an entry, and a new owner
    that has none: the entry leaves its place and is put last, under the new
    owner, with the same player object; the objects themselves (their
    metadata, playback state and signal match), the primary player and the
    output are not touched. *)
Theorem change_owner_moves_last :
  forall (m : MPRISManager) (old_owner new_owner : str)
         (pre post : dict nat) (i : nat),
    players m = pre ++ (old_owner, i) :: post ->
    dict_get pre old_owner = None ->
    dict_get (pre ++ post) new_owner = None ->
    change_owner m old_owner new_owner
    = (with_players m (pre ++ post ++ [(new_owner, i)]), Ok tt).
Proof.
  intros m old_owner new_owner pre post i Hp Hpre Hnew.
  now apply change_owner_moves_eq.
Qed.

Lemma change_owner_moves_last_witness :
  players two_players = [] ++ ($":1.5", 0) :: [($":1.9", 1)]
  /\ dict_get (@nil (str * nat)) $":1.5" = None
  /\ dict_get ([] ++ [($":1.9", 1)]) $":1.7" = None
  /\ players (fst (change_owner two_players $":1.5" $":1.7"))
     = [($":1.9", 1); ($":1.7", 0)].
Proof.
  split; [reflexivity|]. split; [reflexivity|]. split; [reflexivity|].
  exact (f_equal (fun r => players (fst r))
           (change_owner_moves_last two_players $":1.5" $":1.7"
              [] [($":1.9", 1)] 0 eq_refl eq_refl eq_refl)).
Defined.

(** ** on_NameOwnerChanged *)

(** X13. A departure or a change of owner for a player name whose old owner
    has no entry in the registry: [del self.players[old_owner]], or the
    lookup in [change_owner], raises [KeyError]; the handler ends there, the
    manager is left exactly as it was, and [update_players] is not run. *)
Theorem unknown_owner_raises :
  forall (m : MPRISManager) (name old_owner new_owner : str) (bus : remote_t),
    is_player_bus name = true ->
    nonempty old_owner = true ->
    dict_get (players m) old_owner = None ->
    on_NameOwnerChanged m name old_owner new_owner bus = (m, Raise KeyError).
Proof.
  intros m name old_owner new_owner bus Hname Hold Habs.
  unfold on_NameOwnerChanged. rewrite Hname, Hold. cbn [negb andb].
  destruct (nonempty new_owner); cbn [negb andb].
  - unfold change_owner. now rewrite Habs.
  - unfold del_player, dict_mem. now rewrite Habs.
Qed.

Lemma unknown_owner_raises_witness :
  is_player_bus vlc = true
  /\ nonempty $":1.42" = true
  /\ dict_get (players two_players) $":1.42" = None
  /\ on_NameOwnerChanged two_players vlc $":1.42" $"" no_bus
     = (two_players, Raise KeyError).
Proof.
  repeat (split; [reflexivity|]).
  exact (unknown_owner_raises two_players vlc $":1.42" $"" no_bus
           eq_refl eq_refl eq_refl).
Defined.

Lemma populate_players_app (names names' : bus_t) (m : MPRISManager) :
  populate_players m (names ++ names')
  = populate_players (populate_players m names) names'.
Proof.
  revert m; induction names as [|[[name owner] bus] rest IH]; intros m;
    cbn [app populate_players]; [reflexivity|].
  destruct (is_player_bus name); apply IH.
Qed.

Lemma startswith_iff (p s : str) :
  startswith p s = true <-> exists rest, s = p ++ rest.
Proof.
  revert s; induction p as [|c p IH]; intros s; cbn [startswith app].
  - split; [intros _; now exists s|reflexivity].
  - destruct s as [|d s]; [split; [discriminate|intros [rest H]; discriminate H]|].
    rewrite andb_true_iff, Ascii.eqb_eq, IH. split.
    + intros [-> [rest ->]]. now exists rest.
    + intros [rest [= -> ->]]. split; [reflexivity|now exists rest].
Qed.

(** X14. The names the manager takes for players are exactly the strings
    that begin with the 22 characters [org.mpris.MediaPlayer2], whatever
    comes after them.  For every other name, such as [org.freedesktop.DBus]
    or a unique name like [:1.5], [on_NameOwnerChanged] returns without
    touching the manager, whatever the owners, and a list of such names
    leaves [populate_players] without effect: no player is made, nothing is
    registered or printed. *)
Theorem foreign_names_ignored :
  forall (m : MPRISManager),
    (forall name,
        is_player_bus name = true
        <-> exists rest, name = $"org.mpris.MediaPlayer2" ++ rest)
    /\ (forall names : bus_t,
          (forall name owner bus rest,
              In (name, owner, bus) names ->
              name <> $"org.mpris.MediaPlayer2" ++ rest) ->
          populate_players m names = m)
    /\ (forall name old_owner new_owner bus,
          (forall rest, name <> $"org.mpris.MediaPlayer2" ++ rest) ->
          on_NameOwnerChanged m name old_owner new_owner bus = (m, Ok tt)).
Proof.
  assert (Hno : forall name,
             (forall rest, name <> $"org.mpris.MediaPlayer2" ++ rest) ->
             is_player_bus name = false).
  { intros name H. unfold is_player_bus.
    destruct (startswith $"org.mpris.MediaPlayer2" name) eqn:E; [|reflexivity].
    apply startswith_iff in E as [rest E]. elim (H rest E). }
  intros m. split; [|split].
  - intros name. apply startswith_iff.
  - intros names. induction names as [|[[name owner] bus] rest IH];
      intros H; [reflexivity|].
    cbn [populate_players].
    rewrite (Hno name (fun r => H name owner bus r (or_introl eq_refl))).
    apply IH. intros n o b r Hin. apply (H n o b r). now right.
  - intros name old_owner new_owner bus H.
    unfold on_NameOwnerChanged. now rewrite (Hno name H).
Qed.

Lemma foreign_names_ignored_witness :
  is_player_bus $"org.freedesktop.DBus" = false
  /\ is_player_bus $":1.5" = false
  /\ is_player_bus $"org.mpris.MediaPlayer2.vlc" = true
  /\ populate_players two_players
       [($"org.freedesktop.DBus", $":1.0", song_bus $"Playing");
        ($":1.5", $":1.5", song_bus $"Playing")]
     = two_players
  /\ on_NameOwnerChanged two_players $"org.freedesktop.Notifications"
       $"" $":1.77" (song_bus $"Playing")
     = (two_players, Ok tt).
Proof.
  split; [reflexivity|]. split; [reflexivity|]. split; [reflexivity|].
  destruct (foreign_names_ignored two_players) as (_ & Hpop & Hev).
  split.
  - apply Hpop. intros name owner bus rest Hin Heq.
    destruct Hin as [Hin|[Hin|[]]]; injection Hin as <- _ _;
      discriminate Heq.
  - apply Hev. intros rest H. discriminate H.
Defined.

Lemma with_players_subscription (m : MPRISManager) (d : dict nat) :
  subscription_ok m -> subscription_ok (with_players m d).
Proof. intros H; exact H. Qed.

(** X15. A change of owner for the primary player while a player registered
    after it is playing or paused.  The entry of the renamed player goes to
    the end of the registry, so the pass of [update_players] that follows
    meets the other player first: that one becomes the primary player and
    gets the signal match, and the renamed one is disconnected. *)
Theorem rename_hands_over_primary :
  forall (m : MPRISManager) (name old_owner new_owner : str) (bus : remote_t)
         (pre mid rest : dict nat) (i j : nat) (o : str),
    subscription_ok m ->
    is_player_bus name = true ->
    nonempty old_owner = true ->
    nonempty new_owner = true ->
    players m = pre ++ (old_owner, i) :: mid ++ (o, j) :: rest ->
    dict_get pre old_owner = None ->
    dict_get (pre ++ mid ++ (o, j) :: rest) new_owner = None ->
    (forall o' k, In (o', k) (pre ++ mid) -> playback_unknown (store m) k) ->
    playback_known (store m) j ->
    primary_player m = Some i ->
    j <> i ->
    exists m',
      on_NameOwnerChanged m name old_owner new_owner bus = (m', Ok tt)
      /\ players m' = pre ++ mid ++ (o, j) :: rest ++ [(new_owner, i)]
      /\ primary_player m' = Some j
      /\ receivers m' = [(next_match m, j)].
Proof.
  intros m name old_owner new_owner bus pre mid rest i j o
         Hsub Hname Hold Hnew Hp Hpre Habs Hunk Hj Hprim Hji.
  unfold on_NameOwnerChanged. rewrite Hname, Hold, Hnew. cbn [negb andb].
  rewrite (change_owner_moves_eq m old_owner new_owner pre
             (mid ++ (o, j) :: rest) i Hp Hpre Habs).
  set (m1 := with_players m (pre ++ (mid ++ (o, j) :: rest) ++ [(new_owner, i)])).
  unfold update_players.
  rewrite update_players_loop_eq by (apply with_players_subscription, Hsub).
  cbn [players store m1 with_players primary_player].
  replace (pre ++ (mid ++ (o, j) :: rest) ++ [(new_owner, i)])
    with ((pre ++ mid) ++ (o, j) :: rest ++ [(new_owner, i)])
    by (rewrite <- !app_assoc; reflexivity).
  rewrite (first_active_split _ _ _ _ _ Hunk Hj), Hprim.
  cbn [same_player].
  destruct (Nat.eqb i j) eqn:E; [apply Nat.eqb_eq in E; congruence|].
  destruct Hj as (p & b & Hpj & _).
  eexists. split; [reflexivity|].
  rewrite (switch_to_eq m1 j p (with_players_subscription _ _ Hsub) Hpj).
  cbn [players primary_player receivers next_match m1 with_players].
  repeat split. now rewrite <- !app_assoc.
Qed.

Lemma two_active_wf : mgr_wf two_active.
Proof. apply new_manager_wf. Qed.

Lemma rename_hands_over_primary_witness :
  subscription_ok two_active
  /\ is_player_bus vlc = true
  /\ players two_active = [] ++ ($":1.5", 0) :: [] ++ ($":1.9", 1) :: []
  /\ playback_known (store two_active) 1
  /\ primary_player two_active = Some 0
  /\ primary_player
       (fst (on_NameOwnerChanged two_active vlc $":1.5" $":1.7" no_bus))
     = Some 1.
Proof.
  assert (Hsub : subscription_ok two_active) by apply two_active_wf.
  assert (Hk : playback_known (store two_active) 1)
    by (eexists; eexists; split; reflexivity).
  split; [exact Hsub|]. split; [reflexivity|]. split; [reflexivity|].
  split; [exact Hk|]. split; [reflexivity|].
  destruct (rename_hands_over_primary two_active vlc $":1.5" $":1.7" no_bus
              [] [] [] 0 1 $":1.9" Hsub eq_refl eq_refl eq_refl eq_refl
              eq_refl eq_refl (fun o' k (H : In (o', k) ([] ++ [])) =>
                                 match H with end)
              Hk eq_refl (fun H : 1 = 0 => O_S 0 (eq_sym H)))
    as (m' & Hev & _ & Hprim & _).
  rewrite Hev. exact Hprim.
Defined.

(** X16. A change of owner for the primary player when no other registered
    player is playing or paused: the entry moves to the end of the registry
    under the new owner and the manager is otherwise exactly as before; the
    player is still the primary one, with the signal match it had. *)
Theorem rename_keeps_sole_primary :
  forall (m : MPRISManager) (name old_owner new_owner : str) (bus : remote_t)
         (pre post : dict nat) (i : nat),
    subscription_ok m ->
    is_player_bus name = true ->
    nonempty old_owner = true ->
    nonempty new_owner = true ->
    players m = pre ++ (old_owner, i) :: post ->
    dict_get pre old_owner = None ->
    dict_get (pre ++ post) new_owner = None ->
    (forall o k, In (o, k) (pre ++ post) -> playback_unknown (store m) k) ->
    playback_known (store m) i ->
    primary_player m = Some i ->
    on_NameOwnerChanged m name old_owner new_owner bus
    = (with_players m (pre ++ post ++ [(new_owner, i)]), Ok tt).
Proof.
  intros m name old_owner new_owner bus pre post i
         Hsub Hname Hold Hnew Hp Hpre Habs Hunk Hi Hprim.
  unfold on_NameOwnerChanged. rewrite Hname, Hold, Hnew. cbn [negb andb].
  rewrite (change_owner_moves_eq m old_owner new_owner pre post i Hp Hpre Habs).
  unfold update_players.
  rewrite update_players_loop_eq by (apply with_players_subscription, Hsub).
  cbn [players store with_players primary_player].
  rewrite app_assoc.
  rewrite (first_active_split _ _ [] _ _ Hunk Hi), Hprim.
  cbn [same_player]. now rewrite Nat.eqb_refl.
Qed.

Lemma rename_keeps_sole_primary_witness :
  subscription_ok (fst (update_players two_players))
  /\ players (fst (update_players two_players))
     = [($":1.5", 0)] ++ ($":1.9", 1) :: []
  /\ primary_player (fst (update_players two_players)) = Some 1
  /\ (let m' := fst (on_NameOwnerChanged (fst (update_players two_players))
                       mpv $":1.9" $":1.7" no_bus) in
      players m' = [($":1.5", 0); ($":1.7", 1)]
      /\ primary_player m' = Some 1).
Proof.
  set (m := fst (update_players two_players)).
  assert (Hwf : mgr_wf m)
    by (apply update_players_wf, populate_players_wf, empty_manager_wf).
  assert (Hunk : forall o k, In (o, k) ([($":1.5", 0)] ++ []) ->
                             playback_unknown (store m) k).
  { intros o k [[= _ <-]|[]]. eexists; split; reflexivity. }
  assert (Hk : playback_known (store m) 1)
    by (eexists; eexists; split; reflexivity).
  split; [apply Hwf|]. split; [reflexivity|]. split; [reflexivity|].
  cbv zeta.
  rewrite (rename_keeps_sole_primary m mpv $":1.9" $":1.7" no_bus
             [($":1.5", 0)] [] 1 (proj2 Hwf) eq_refl eq_refl eq_refl
             eq_refl eq_refl eq_refl Hunk Hk eq_refl).
  split; reflexivity.
Defined.

(** ** update_players *)

Lemma first_active_ext (s s' : list MPRISPlayer) (items : dict nat) :
  (forall j, option_map is_playing (nth_error s' j)
             = option_map is_playing (nth_error s j)) ->
  first_active s' items = first_active s items.
Proof.
  intros H. induction items as [|[o j] rest IH]; [reflexivity|].
  cbn [first_active]. specialize (H j).
  destruct (nth_error s' j) as [p'|], (nth_error s j) as [p|];
    cbn [option_map] in H; try discriminate; auto.
  injection H as H. rewrite H. destruct (is_playing p); auto.
Qed.

Lemma first_active_in (s : list MPRISPlayer) (items : dict nat) :
  (exists o i, In (o, i) items /\ playback_known s i) ->
  exists i, first_active s items = Some i.
Proof.
  induction items as [|[o j] rest IH]; intros (o' & i & Hin & Hk).
  - destruct Hin.
  - cbn [first_active].
    destruct (nth_error s j) as [p|] eqn:Hp.
    + destruct (is_playing p) eqn:Hb; [eauto|].
      apply IH. destruct Hin as [[= <- <-]|Hin]; [|eauto].
      destruct Hk as (q & b & Hq & Hb'). congruence.
    + apply IH. destruct Hin as [[= <- <-]|Hin]; [|eauto].
      destruct Hk as (q & b & Hq & Hb'). congruence.
Qed.

(** X17. [update_players] twice in a row on a well-formed manager with some
    registered player playing or paused: the second pass finds the primary
    player it looks for already in place and changes nothing. *)
Theorem update_players_twice :
  forall (m : MPRISManager),
    mgr_wf m ->
    (exists o i, In (o, i) (players m) /\ playback_known (store m) i) ->
    let m1 := fst (update_players m) in
    update_players m1 = (m1, Ok tt).
Proof.
  intros m Hwf Hex m1. pose proof Hwf as [Hreg Hsub].
  destruct (first_active_in _ _ Hex) as [i Hi].
  assert (Hm1 : m1 = if same_player (primary_player m) i then m
                     else switch_to m i).
  { unfold m1, update_players. rewrite update_players_loop_eq by assumption.
    rewrite Hi. now destruct (same_player (primary_player m) i). }
  destruct (first_active_some _ _ _ Hi) as (p & b & Hp & Hb).
  destruct (same_player (primary_player m) i) eqn:E.
  - rewrite Hm1. unfold update_players.
    rewrite update_players_loop_eq by assumption. now rewrite Hi, E.
  - rewrite Hm1.
    pose proof (switch_to_wf _ _ _ Hwf Hp) as [_ Hsub1].
    unfold update_players. rewrite update_players_loop_eq by assumption.
    assert (Hfa : first_active (store (switch_to m i)) (players (switch_to m i))
                  = Some i).
    { rewrite (switch_to_eq _ _ _ Hsub Hp). cbn [store players].
      rewrite (first_active_ext (store m)); [exact Hi|].
      intros j. destruct (Nat.eq_dec i j) as [<-|Hne].
      - rewrite store_set_eq by (eapply nth_error_lt; eauto).
        now rewrite Hp.
      - now rewrite store_set_neq. }
    assert (Hpr : primary_player (switch_to m i) = Some i)
      by (now rewrite (switch_to_eq _ _ _ Hsub Hp)).
    rewrite Hfa, Hpr. cbn [same_player]. now rewrite Nat.eqb_refl.
Qed.

Lemma update_players_twice_witness :
  mgr_wf two_players
  /\ (exists o i, In (o, i) (players two_players)
                  /\ playback_known (store two_players) i)
  /\ update_players (fst (update_players two_players))
     = (fst (update_players two_players), Ok tt).
Proof.
  assert (Hwf : mgr_wf two_players)
    by (apply populate_players_wf, empty_manager_wf).
  assert (Hex : exists o i, In (o, i) (players two_players)
                            /\ playback_known (store two_players) i).
  { exists $":1.9", 1. split; [right; left; reflexivity|].
    eexists; eexists; split; reflexivity. }
  split; [exact Hwf|]. split; [exact Hex|].
  exact (update_players_twice two_players Hwf Hex).
Defined.

(** X18. In every state the manager can reach, [update_players] returns
    normally: the [disconnect] of the primary player never finds
    [self.connection] to be [None].  So does the handler of an arrival,
    whatever the name and the owner. *)
Theorem update_players_never_raises :
  forall (m : MPRISManager),
    reachable m ->
    snd (update_players m) = Ok tt
    /\ (forall name new_owner bus,
          nonempty new_owner = true ->
          snd (on_NameOwnerChanged m name [] new_owner bus) = Ok tt).
Proof.
  assert (Hup : forall m, mgr_wf m -> snd (update_players m) = Ok tt).
  { intros m [_ Hsub]. unfold update_players.
    rewrite update_players_loop_eq by assumption.
    destruct (first_active _ _); [|reflexivity].
    now destruct (same_player _ _). }
  intros m Hr. pose proof (reachable_wf m Hr) as Hwf.
  split; [now apply Hup|].
  intros name new_owner bus Hnew. unfold on_NameOwnerChanged.
  destruct (is_player_bus name); [|reflexivity].
  rewrite Hnew. cbn [nonempty negb andb].
  apply Hup. now apply add_player_wf.
Qed.

Lemma update_players_never_raises_witness :
  reachable after_departure
  /\ snd (update_players after_departure) = Ok tt.
Proof.
  split; [exact after_departure_reachable|].
  exact (proj1 (update_players_never_raises after_departure
                  after_departure_reachable)).
Defined.

(** ** Signals of a player *)

(** X19. The delivery of a [PropertiesChanged] signal, whatever it carries,
    leaves the registry, the primary player and the signal matches as they
    are: [update_players] is not run, so a primary player whose playback
    status becomes unknown stays primary, and no other player takes over.
    Only the player the match belongs to can change.  A signal for another
    interface than [org.mpris.MediaPlayer2.Player] changes nothing at all. *)
Theorem deliver_keeps_selection :
  forall (m : MPRISManager) (t : nat) (interface : str)
         (cp : changed_props_t) (bus : remote_t),
    let m' := fst (deliver m t interface cp bus) in
    players m' = players m
    /\ primary_player m' = primary_player m
    /\ receivers m' = receivers m
    /\ List.length (store m') = List.length (store m)
    /\ (forall j, find_receiver t (receivers m) <> Some j ->
                  nth_error (store m') j = nth_error (store m) j)
    /\ (str_eqb interface player_interface = false ->
        deliver m t interface cp bus = (m, Ok tt)).
Proof.
  intros m t interface cp bus m'. unfold m', deliver.
  destruct (find_receiver t (receivers m)) as [i|] eqn:Hi;
    [|repeat split; reflexivity].
  destruct (nth_error (store m) i) as [p|] eqn:Hp;
    [|repeat split; reflexivity].
  destruct (on_PropertiesChanged p interface cp bus) as [[p' out] r] eqn:Hh.
  cbn [fst players primary_player receivers store print with_store].
  split; [reflexivity|]. split; [reflexivity|]. split; [reflexivity|].
  split; [apply store_set_length|]. split.
  - intros j Hj. apply store_set_neq. congruence.
  - intros Hiface. unfold on_PropertiesChanged in Hh. rewrite Hiface in Hh.
    injection Hh as <- <- <-.
    now rewrite (store_set_same _ _ _ Hp), with_store_same, print_nothing.
Qed.

(** X20. One change notification changes at most one of the two cached
    things, the metadata or the playback state, and nothing else of the
    player; it prints nothing by itself; and when [update_status] returns
    [False] the player is exactly as before. *)
Theorem update_status_event_effect :
  forall (p : MPRISPlayer) (cp : changed_props_t) (bus : remote_t),
    cp_nonempty cp = true ->
    let p' := fst (fst (update_status p (Some cp) bus)) in
    snd (fst (update_status p (Some cp) bus)) = []
    /\ (metadata p' = metadata p \/ is_playing p' = is_playing p)
    /\ connection p' = connection p
    /\ prev_content p' = prev_content p
    /\ format_string p' = format_string p
    /\ bus_name p' = bus_name p
    /\ (snd (update_status p (Some cp) bus) = false -> p' = p).
Proof.
  intros p cp bus Hne p'. unfold p', update_status. rewrite Hne.
  unfold update_status_changed.
  destruct (cp_Position cp); [repeat split; auto|].
  destruct (match cp_Metadata cp with
            | Some changed => scan_metadata (metadata p) changed
            | None => None
            end) as [md'|].
  - cbn. repeat split; auto. discriminate.
  - destruct (cp_PlaybackStatus cp); cbn; repeat split; auto. discriminate.
Qed.

Lemma update_status_event_effect_witness :
  cp_nonempty track_change = true
  /\ is_playing (fst (fst (update_status blank_player (Some track_change) no_bus)))
     = is_playing blank_player.
Proof.
  split; [reflexivity|].
  destruct (update_status_event_effect blank_player track_change no_bus eq_refl)
    as (_ & [H|H] & _); [discriminate H|exact H].
Defined.

Lemma field_of_name_field (f : field) : field_of_name (field_name f) = Some f.
Proof. now destruct f. Qed.

Lemma skipn_prefix (pre s : str) (n : nat) :
  List.length pre = n -> skipn n (pre ++ s) = s.
Proof.
  intros <-. rewrite skipn_app, skipn_all, Nat.sub_diag. reflexivity.
Qed.

(** X21. The keys of a [Metadata] change are cut after their first six
    characters without a look at what these are: a key made of any six
    characters and [title], [artist] or [album] updates the cache when its
    value differs, whether the six are [xesam:] or not; and a key of six
    characters or fewer, such as [title] by itself, names no cached value,
    so the event is not an update. *)
Theorem metadata_key_prefix_unchecked :
  forall (p : MPRISPlayer) (bus : remote_t),
    (forall (pre : str) (f : field) (v : value),
        List.length pre = 6 ->
        md_get (metadata p) f <> v ->
        update_status p
          (Some {| cp_Position := None;
                   cp_Metadata := Some [(pre ++ field_name f, v)];
                   cp_PlaybackStatus := None; cp_others := [] |}) bus
        = (set_metadata p (md_set (metadata p) f v), [], true))
    /\ (forall (key : str) (v : value),
          List.length key <= 6 ->
          update_status p
            (Some {| cp_Position := None; cp_Metadata := Some [(key, v)];
                     cp_PlaybackStatus := None; cp_others := [] |}) bus
          = (p, [], false)).
Proof.
  intros p bus. split.
  - intros pre f v Hlen Hv.
    unfold update_status, update_status_changed.
    cbn [cp_nonempty cp_Position cp_Metadata cp_PlaybackStatus cp_others
         scan_metadata].
    rewrite (skipn_prefix _ _ _ Hlen), field_of_name_field.
    apply value_eqb_neq in Hv. now rewrite Hv.
  - intros key v Hlen.
    unfold update_status, update_status_changed.
    cbn [cp_nonempty cp_Position cp_Metadata cp_PlaybackStatus cp_others
         scan_metadata].
    now rewrite skipn_all2 by exact Hlen.
Qed.

Lemma replace_tag_shown (original : str) (md : metadata_t) :
  (forall f, md_get md f <> VList []) ->
  exists r, replace_tag original md = Ok r.
Proof.
  intros H. unfold replace_tag, md_items.
  cbn [map fields replace_tag_loop md_get].
  destruct (tag_value_cases (title md)) as [[E _]|[_ [s1 R1]]];
    [elim (H Title E)|].
  destruct (tag_value_cases (artist md)) as [[E _]|[_ [s2 R2]]];
    [elim (H Artist E)|].
  destruct (tag_value_cases (album md)) as [[E _]|[_ [s3 R3]]];
    [elim (H Album E)|].
  rewrite R1; cbn [bind]. rewrite R2; cbn [bind]. rewrite R3; cbn [bind].
  eexists; reflexivity.
Qed.

(** X22. A full update whose [Metadata] read succeeds leaves the player
    with metadata that [replace_tag] accepts, whatever was cached before
    (the empty list that [__init__] puts under ['artist'] included) and
    whether or not the [PlaybackStatus] read succeeds, as long as the answer
    holds no empty list under the three keys: a key missing from the answer
    is stored as the empty string. *)
Theorem full_update_can_be_shown :
  forall (p : MPRISPlayer) (bus : remote_t) (raw : dict value),
    get_Metadata bus = Some raw ->
    (forall f, dict_get raw ($"xesam:" ++ field_name f) <> Some (VList [])) ->
    let p' := fst (fst (update_status p None bus)) in
    (exists r, replace_tag (format_string p') (metadata p') = Ok r)
    /\ (forall f, dict_get raw ($"xesam:" ++ field_name f) = None ->
                  md_get (metadata p') f = VStr []).
Proof.
  intros p bus raw Hraw Hne p'.
  assert (Hmd : metadata p' = fetch_metadata raw).
  { unfold p', update_status, update_status_full. rewrite Hraw.
    now destruct (get_PlaybackStatus bus). }
  assert (Hget : forall f, md_get (fetch_metadata raw) f
                           = match dict_get raw ($"xesam:" ++ field_name f) with
                             | Some v => v
                             | None => VStr []
                             end) by (intros []; reflexivity).
  split.
  - apply replace_tag_shown. intros f. rewrite Hmd, Hget.
    specialize (Hne f).
    destruct (dict_get raw ($"xesam:" ++ field_name f)); congruence.
  - intros f Hf. now rewrite Hmd, Hget, Hf.
Qed.

Lemma full_update_can_be_shown_witness :
  get_Metadata {| get_Metadata := Some [($"xesam:title", VStr $"Song")];
                  get_PlaybackStatus := None |}
  = Some [($"xesam:title", VStr $"Song")]
  /\ (forall f, dict_get [($"xesam:title", VStr $"Song")]
                  ($"xesam:" ++ field_name f) <> Some (VList []))
  /\ exists r,
       replace_tag default_format
         (metadata (fst (fst (update_status blank_player None
            {| get_Metadata := Some [($"xesam:title", VStr $"Song")];
               get_PlaybackStatus := None |}))))
       = Ok r.
Proof.
  assert (Hne : forall f, dict_get [($"xesam:title", VStr $"Song")]
                            ($"xesam:" ++ field_name f) <> Some (VList []))
    by (intros []; discriminate).
  split; [reflexivity|]. split; [exact Hne|].
  exact (proj1 (full_update_can_be_shown blank_player
                  {| get_Metadata := Some [($"xesam:title", VStr $"Song")];
                     get_PlaybackStatus := None |}
                  [($"xesam:title", VStr $"Song")] eq_refl Hne)).
Defined.

(** ** The registry along runs *)

Lemma dict_get_none_keys {V} (d : dict V) (k : str) :
  ~ In k (map fst d) -> dict_get d k = None.
Proof.
  induction d as [|[k0 v0] d IH]; cbn [map fst dict_get In]; [reflexivity|].
  intros H. destruct (str_eqb k0 k) eqn:E.
  - apply str_eqb_eq in E. tauto.
  - apply IH. tauto.
Qed.

Lemma dict_get_some_keys {V} (d : dict V) (k : str) (v : V) :
  dict_get d k = Some v -> In k (map fst d).
Proof.
  intros H. apply dict_get_in in H. now apply (in_map fst) in H.
Qed.

Lemma dict_del_keys {V} (d : dict V) (k k' : str) :
  In k' (map fst (dict_del d k)) -> In k' (map fst d).
Proof.
  induction d as [|[k0 v0] d IH]; cbn [dict_del map fst In]; [tauto|].
  destruct (str_eqb k0 k); cbn [map fst In]; tauto.
Qed.

Lemma dict_del_nodup {V} (d : dict V) (k : str) :
  NoDup (map fst d) -> NoDup (map fst (dict_del d k)).
Proof.
  induction d as [|[k0 v0] d IH]; cbn [dict_del map fst]; [auto|].
  intros H. inversion H as [|? ? Hin Hnd]; subst.
  destruct (str_eqb k0 k); [assumption|].
  cbn [map fst]. constructor; [|auto].
  intros H'. apply Hin. eapply dict_del_keys; eauto.
Qed.

Lemma dict_set_keys {V} (d : dict V) (k k' : str) (v : V) :
  In k' (map fst (dict_set d k v)) -> In k' (map fst d) \/ k' = k.
Proof.
  induction d as [|[k0 v0] d IH]; cbn [dict_set map fst In].
  - intros [<-|[]]; now right.
  - destruct (str_eqb k0 k); cbn [map fst In]; tauto.
Qed.

Lemma dict_set_nodup {V} (d : dict V) (k : str) (v : V) :
  NoDup (map fst d) -> NoDup (map fst (dict_set d k v)).
Proof.
  induction d as [|[k0 v0] d IH]; cbn [dict_set map fst].
  - intros _. constructor; [intros []|constructor].
  - intros H. inversion H as [|? ? Hin Hnd]; subst.
    destruct (str_eqb k0 k) eqn:E; cbn [map fst].
    + now constructor.
    + constructor; [|auto].
      intros H'. apply dict_set_keys in H' as [H'| ->]; [tauto|].
      rewrite str_eqb_refl in E. discriminate.
Qed.

Lemma dict_get_del_same {V} (d : dict V) (k : str) :
  NoDup (map fst d) -> dict_get (dict_del d k) k = None.
Proof.
  induction d as [|[k0 v0] d IH]; cbn [dict_del map fst]; [reflexivity|].
  intros H. inversion H as [|? ? Hin Hnd]; subst.
  destruct (str_eqb k0 k) eqn:E.
  - apply str_eqb_eq in E; subst. now apply dict_get_none_keys.
  - cbn [dict_get]. rewrite E. auto.
Qed.

Lemma dict_get_del_other {V} (d : dict V) (k k' : str) :
  k' <> k -> dict_get (dict_del d k) k' = dict_get d k'.
Proof.
  intros Hne. induction d as [|[k0 v0] d IH]; cbn [dict_del dict_get];
    [reflexivity|].
  destruct (str_eqb k0 k) eqn:E.
  - apply str_eqb_eq in E; subst k0.
    assert (E' : str_eqb k k' = false) by (apply str_eqb_neq; congruence).
    now rewrite E'.
  - cbn [dict_get]. destruct (str_eqb k0 k'); auto.
Qed.

Lemma add_player_players (m : MPRISManager) (name owner : str) (bus : remote_t) :
  players (add_player m name owner bus)
  = dict_set (players m) owner (List.length (store m)).
Proof. unfold add_player. now destruct (new_player name (mgr_format m) bus). Qed.

Lemma update_players_players (m : MPRISManager) :
  players (fst (update_players m)) = players m.
Proof. apply update_players_loop_players. Qed.

Lemma deliver_players (m : MPRISManager) (t : nat) (interface : str)
  (cp : changed_props_t) (bus : remote_t) :
  players (fst (deliver m t interface cp bus)) = players m.
Proof.
  unfold deliver.
  destruct (find_receiver t (receivers m)); [|reflexivity].
  destruct (nth_error (store m) n); [|reflexivity].
  now destruct (on_PropertiesChanged m0 interface cp bus) as [[p' out] r].
Qed.

Lemma print_primary_players (m : MPRISManager) :
  players (fst (print_primary m)) = players m.
Proof.
  unfold print_primary.
  destruct (primary_player m); [|reflexivity].
  destruct (nth_error (store m) n); [|reflexivity].
  now destruct (print_status m0) as [[p' out] r].
Qed.

Lemma populate_players_nodup (names : bus_t) (m : MPRISManager) :
  NoDup (owners m) -> NoDup (owners (populate_players m names)).
Proof.
  revert m; induction names as [|[[name owner] bus] rest IH]; intros m H;
    cbn [populate_players]; [assumption|].
  destruct (is_player_bus name); [|auto].
  apply IH. unfold owners. rewrite add_player_players. now apply dict_set_nodup.
Qed.

Lemma exec_nodup (m : MPRISManager) (o : op) :
  NoDup (owners m) -> NoDup (owners (fst (exec m o))).
Proof.
  intros H. unfold owners in *.
  assert (Hdel : forall m owner, NoDup (map fst (players m)) ->
                   NoDup (map fst (players (fst (del_player m owner))))).
  { intros m0 owner H0. unfold del_player.
    destruct (dict_mem (players m0) owner); [|assumption].
    now apply dict_del_nodup. }
  assert (Hch : forall m a b, NoDup (map fst (players m)) ->
                  NoDup (map fst (players (fst (change_owner m a b))))).
  { intros m0 a b H0. unfold change_owner.
    destruct (dict_get (players m0) a); [|assumption].
    now apply dict_set_nodup, dict_del_nodup. }
  destruct o; cbn [exec fst].
  - now apply populate_players_nodup.
  - rewrite add_player_players. now apply dict_set_nodup.
  - now apply Hdel.
  - now apply Hch.
  - now rewrite update_players_players.
  - unfold on_NameOwnerChanged.
    destruct (is_player_bus name); [|assumption].
    destruct (negb (nonempty old_owner) && nonempty new_owner).
    + rewrite update_players_players, add_player_players.
      now apply dict_set_nodup.
    + destruct (negb (nonempty new_owner) && nonempty old_owner).
      * pose proof (Hdel m old_owner H) as H1.
        destruct (del_player m old_owner) as [m1 [u|e]]; cbn [fst] in *;
          [now rewrite update_players_players|assumption].
      * pose proof (Hch m old_owner new_owner H) as H1.
        destruct (change_owner m old_owner new_owner) as [m1 [u|e]];
          cbn [fst] in *; [now rewrite update_players_players|assumption].
  - now rewrite deliver_players.
  - now rewrite print_primary_players.
Qed.

Lemma reachable_nodup (m : MPRISManager) : reachable m -> NoDup (owners m).
Proof.
  induction 1 as [fmt|m o _ IH]; [constructor|now apply exec_nodup].
Qed.

(** X23. In every state the manager can reach no owner has two entries in
    the registry, and after [del_player] the owner has none, be it that the
    entry was deleted or that there was none and [KeyError] was raised; the
    entries of the other owners are the ones from before. *)
Theorem del_player_removes_owner :
  forall (m : MPRISManager) (owner : str),
    reachable m ->
    NoDup (owners m)
    /\ dict_get (players (fst (del_player m owner))) owner = None
    /\ (forall o, o <> owner ->
                  dict_get (players (fst (del_player m owner))) o
                  = dict_get (players m) o)
    /\ (snd (del_player m owner) = Raise KeyError
        <-> dict_get (players m) owner = None).
Proof.
  intros m owner Hr. pose proof (reachable_nodup m Hr) as Hnd.
  split; [exact Hnd|].
  unfold del_player, dict_mem.
  destruct (dict_get (players m) owner) as [i|] eqn:E; cbn [fst snd players with_players].
  - split; [now apply dict_get_del_same|]. split.
    + intros o Ho. now apply dict_get_del_other.
    + split; discriminate.
  - split; [exact E|]. split; [reflexivity|]. split; reflexivity.
Qed.

Lemma del_player_removes_owner_witness :
  reachable two_active
  /\ dict_get (players (fst (del_player two_active $":1.5"))) $":1.5" = None
  /\ dict_get (players (fst (del_player two_active $":1.5"))) $":1.9" = Some 1.
Proof.
  assert (Hr : reachable two_active).
  { change two_active
      with (run (empty_manager default_format)
              [OpPopulate [(vlc, $":1.5", song_bus $"Playing");
                           (mpv, $":1.9", song_bus $"Paused")];
               OpUpdatePlayers]).
    apply run_reachable. constructor. }
  split; [exact Hr|].
  split; [exact (proj1 (proj2 (del_player_removes_owner two_active $":1.5" Hr)))|].
  reflexivity.
Defined.

(** ** populate_players and __init__ *)

Lemma dict_mem_set_keeps {V} (d : dict V) (k k' : str) (v : V) :
  dict_mem d k' = true -> dict_mem (dict_set d k v) k' = true.
Proof.
  unfold dict_mem. intros H.
  destruct (dict_get d k') as [w|] eqn:E; [|discriminate].
  destruct (str_eqb k' k) eqn:Ek.
  - apply str_eqb_eq in Ek; subst. now rewrite dict_get_set_eq.
  - apply str_eqb_neq in Ek. now rewrite (dict_get_set_neq _ _ _ _ Ek), E.
Qed.

Lemma populate_players_keeps (names : bus_t) (m : MPRISManager) (o : str) :
  dict_mem (players m) o = true ->
  dict_mem (players (populate_players m names)) o = true.
Proof.
  revert m; induction names as [|[[name owner] bus] rest IH]; intros m H;
    cbn [populate_players]; [assumption|].
  destruct (is_player_bus name); [|auto].
  apply IH. rewrite add_player_players. now apply dict_mem_set_keeps.
Qed.

Lemma populate_players_store_length (names : bus_t) (m : MPRISManager) :
  List.length (store (populate_players m names))
  = List.length (store m)
    + List.length (filter (fun e => is_player_bus (fst (fst e))) names).
Proof.
  revert m; induction names as [|[[name owner] bus] rest IH]; intros m;
    cbn [populate_players filter fst]; [simpl; lia|].
  destruct (is_player_bus name); [|apply IH].
  rewrite IH. unfold add_player.
  destruct (new_player name (mgr_format m) bus) as [p out].
  cbn [store with_players with_store List.length]. rewrite length_app.
  cbn [List.length]. lia.
Qed.

(** X24. After [populate_players] the owner of every listed name that starts
    with [org.mpris.MediaPlayer2] has an entry in the registry, and one
    player object has been made for each such name.  The registry has no
    more entries than objects: two names with the same owner share one
    entry, which refers to the player made last. *)
Theorem populate_players_registers :
  forall (names : bus_t) (m : MPRISManager),
    (forall name owner bus,
        In (name, owner, bus) names ->
        is_player_bus name = true ->
        dict_mem (players (populate_players m names)) owner = true)
    /\ List.length (store (populate_players m names))
       = List.length (store m)
         + List.length (filter (fun e => is_player_bus (fst (fst e))) names)
    /\ (forall name name' owner bus bus',
          is_player_bus name = true ->
          is_player_bus name' = true ->
          players (populate_players m [(name, owner, bus); (name', owner, bus')])
          = dict_set (players m) owner (S (List.length (store m)))).
Proof.
  intros names m. split; [|split].
  - revert m; induction names as [|[[n0 o0] b0] rest IH];
      intros m name owner bus Hin Hname; [destruct Hin|].
    cbn [populate_players].
    destruct Hin as [[= -> -> ->]|Hin].
    + rewrite Hname. apply populate_players_keeps.
      rewrite add_player_players. unfold dict_mem.
      now rewrite dict_get_set_eq.
    + destruct (is_player_bus n0); eapply IH; eauto.
  - apply populate_players_store_length.
  - intros name name' owner bus bus' H1 H2.
    cbn [populate_players]. rewrite H1, H2.
    rewrite !add_player_players.
    assert (Hlen : List.length (store (add_player m name owner bus))
                   = S (List.length (store m))).
    { unfold add_player. destruct (new_player name (mgr_format m) bus).
      cbn [store with_players with_store]. rewrite length_app. simpl. lia. }
    rewrite Hlen. apply dict_set_twice.
Qed.

Lemma new_player_unknown (name fmt : str) (bus : remote_t) :
  reply_unknown bus -> is_playing (fst (new_player name fmt bus)) = None.
Proof.
  unfold reply_unknown, new_player, update_status, update_status_full.
  destruct (get_Metadata bus); [|reflexivity].
  destruct (get_PlaybackStatus bus); [|reflexivity].
  cbn. auto.
Qed.

Lemma populate_players_unknown (names : bus_t) (m : MPRISManager) :
  (forall name owner bus,
      In (name, owner, bus) names -> is_player_bus name = true ->
      reply_unknown bus) ->
  (forall p, In p (store m) -> is_playing p = None) ->
  forall p, In p (store (populate_players m names)) -> is_playing p = None.
Proof.
  revert m; induction names as [|[[name owner] bus] rest IH];
    intros m Hnames Hm; cbn [populate_players]; [assumption|].
  destruct (is_player_bus name) eqn:E.
  - apply IH; [intros n o b Hin; apply (Hnames n o b); now right|].
    intros p Hp. unfold add_player in Hp.
    pose proof (new_player_unknown name (mgr_format m) bus
                  (Hnames name owner bus (or_introl eq_refl) E)) as Hnew.
    destruct (new_player name (mgr_format m) bus) as [q out].
    cbn [store with_players with_store fst] in *.
    apply in_app_iff in Hp as [Hp|[<-|[]]]; auto.
  - apply IH; [intros n o b Hin; apply (Hnames n o b); now right|assumption].
Qed.

Lemma first_active_all_unknown (s : list MPRISPlayer) (items : dict nat) :
  (forall p, In p s -> is_playing p = None) -> first_active s items = None.
Proof.
  intros H. induction items as [|[o i] rest IH]; [reflexivity|].
  cbn [first_active].
  destruct (nth_error s i) as [p|] eqn:Hp; [|exact IH].
  rewrite (H p (nth_error_In _ _ Hp)). exact IH.
Qed.

Lemma populate_players_primary (names : bus_t) (m : MPRISManager) :
  primary_player (populate_players m names) = primary_player m
  /\ receivers (populate_players m names) = receivers m.
Proof.
  revert m; induction names as [|[[name owner] bus] rest IH]; intros m;
    cbn [populate_players]; [now split|].
  destruct (is_player_bus name); [|apply IH].
  destruct (IH (add_player m name owner bus)) as [H1 H2].
  rewrite H1, H2. unfold add_player.
  now destruct (new_player name (mgr_format m) bus).
Qed.

(** X25. A manager started on a bus where no player can be told to be
    playing or paused (for each one a read fails, or its status is something
    else): [__init__] prints [NO ACTIVE PLAYERS] after whatever the players'
    own updates printed, the primary player is the [NonePlayer], no signal
    match is made, and the [print_status] that [main] then calls prints
    nothing. *)
Theorem new_manager_nobody_active :
  forall (fmt : str) (names : bus_t),
    (forall name owner bus,
        In (name, owner, bus) names -> is_player_bus name = true ->
        reply_unknown bus) ->
    let m0 := populate_players (empty_manager fmt) names in
    let m := fst (new_manager fmt names) in
    new_manager fmt names = (print m0 [$"NO ACTIVE PLAYERS"], Ok tt)
    /\ primary_player m = None
    /\ receivers m = []
    /\ print_primary m = (m, Ok tt).
Proof.
  intros fmt names Hnames m0 m.
  assert (Hwf : mgr_wf m0) by (apply populate_players_wf, empty_manager_wf).
  assert (Hunk : forall p, In p (store m0) -> is_playing p = None)
    by (apply populate_players_unknown; [assumption|intros p []]).
  assert (Hp : primary_player m0 = None)
    by apply (populate_players_primary names (empty_manager fmt)).
  assert (Hr : receivers m0 = [])
    by apply (populate_players_primary names (empty_manager fmt)).
  assert (E : new_manager fmt names = (print m0 [$"NO ACTIVE PLAYERS"], Ok tt)).
  { unfold new_manager, update_players. fold m0.
    rewrite update_players_loop_eq by apply Hwf.
    now rewrite (first_active_all_unknown _ _ Hunk). }
  unfold m. rewrite E. cbn [fst].
  assert (Hp1 : primary_player (print m0 [$"NO ACTIVE PLAYERS"]) = None)
    by exact Hp.
  split; [reflexivity|]. split; [exact Hp1|]. split; [exact Hr|].
  unfold print_primary. now rewrite Hp1.
Qed.

Lemma new_manager_nobody_active_witness :
  (forall name owner bus,
      In (name, owner, bus)
         [(vlc, $":1.5", song_bus $"Stopped"); (mpv, $":1.9", no_bus)] ->
      is_player_bus name = true -> reply_unknown bus)
  /\ primary_player
       (fst (new_manager default_format
               [(vlc, $":1.5", song_bus $"Stopped"); (mpv, $":1.9", no_bus)]))
     = None
  /\ stdout
       (fst (new_manager default_format
               [(vlc, $":1.5", song_bus $"Stopped"); (mpv, $":1.9", no_bus)]))
     = [$"METADATA UNAVAILABLE"; $"NO ACTIVE PLAYERS"].
Proof.
  assert (H : forall name owner bus,
             In (name, owner, bus)
                [(vlc, $":1.5", song_bus $"Stopped"); (mpv, $":1.9", no_bus)] ->
             is_player_bus name = true -> reply_unknown bus).
  { intros name owner bus [[= <- <- <-]|[[= <- <- <-]|[]]] _;
      [reflexivity|exact I]. }
  split; [exact H|].
  split; [exact (proj1 (proj2 (new_manager_nobody_active default_format _ H)))|].
  reflexivity.
Defined.
